(** * Lomography filter (lomography.cpp): a shallow embedding and its properties

    The program keeps three images ([img], [result], [display]) and two
    integer parameters ([s], [radius]) in global variables and updates them
    from two trackbar callbacks, [trackbar_color] and [trackbar_halo].

    Numeric conventions of the embedding:
    - 8-bit channels and C [int]s are integers of [Z];
    - [double] and [float] values whose operations IEEE 754 fixes bit for bit
      (conversion from [int], [*], [/], conversion back to an integer) are
      [spec_float]s of the Standard Library, at precision 53 and 24;
    - the colour curve calls [std::exp] and [pow], which IEEE 754 does not
      fix; there the arithmetic is the exact one of [R]. *)

From Stdlib Require Import ZArith List Bool Lia SpecFloat.
From Stdlib Require Import Reals Lra.
Import ListNotations.
Local Open Scope Z_scope.

(** ** IEEE 754 arithmetic used by the callbacks *)

Module Ieee.

(** [double]: binary64. *)
Definition int_to_double (z : Z) : spec_float := binary_normalize 53 1024 z 0 false.
Definition ddiv : spec_float -> spec_float -> spec_float := SFdiv 53 1024.
Definition dmul : spec_float -> spec_float -> spec_float := SFmul 53 1024.

(** [float]: binary32. *)
Definition int_to_float (z : Z) : spec_float := binary_normalize 24 128 z 0 false.
Definition fmul : spec_float -> spec_float -> spec_float := SFmul 24 128.
Definition fleb : spec_float -> spec_float -> bool := SFleb.
Definition feqb : spec_float -> spec_float -> bool := SFeqb.

(** The literals [0.5] and [1] of [cv::Scalar], stored in a [CV_32F] matrix. *)
Definition f_half : spec_float := binary_normalize 24 128 1 (-1) false.
Definition f_one : spec_float := int_to_float 1.

Definition INT_MIN : Z := - 2 ^ 31.
Definition INT_MAX : Z := 2 ^ 31 - 1.

Definition in_int (z : Z) : bool := (INT_MIN <=? z) && (z <=? INT_MAX).

(** The finite value [m * 2^e] cut towards zero. *)
Definition truncate (f : spec_float) : option Z :=
  match f with
  | S754_zero _ => Some 0
  | S754_finite sg m e =>
      let a := if 0 <=? e then Zpos m * 2 ^ e else Zpos m / 2 ^ (- e) in
      Some (if sg then - a else a)
  | _ => None
  end.

(** [static_cast<int>(double)].  The conversion of a NaN, an infinity or a
    value outside [int] is undefined in C++; x86 ([cvttsd2si]) gives
    [INT_MIN], which is what this definition returns. *)
Definition double_to_int (f : spec_float) : Z :=
  match truncate f with
  | Some z => if in_int z then z else INT_MIN
  | None => INT_MIN
  end.

(** [n / 2^k] rounded to the nearest integer, ties to even ([0 < k]). *)
Definition shift_round_even (n k : Z) : Z :=
  let q := n / 2 ^ k in
  let r := n mod 2 ^ k in
  let h := 2 ^ (k - 1) in
  if r <? h then q
  else if h <? r then q + 1
  else if Z.even q then q else q + 1.

(** The finite value [m * 2^e] rounded to the nearest integer, ties to even
    (the current rounding mode of [lrint] / [cvtss2si]). *)
Definition rint (f : spec_float) : option Z :=
  match f with
  | S754_zero _ => Some 0
  | S754_finite sg m e =>
      let a := if 0 <=? e then Zpos m * 2 ^ e else shift_round_even (Zpos m) (- e) in
      Some (if sg then - a else a)
  | _ => None
  end.

(** [cvRound(float)]; [INT_MIN] where the conversion is out of range. *)
Definition cvRound_float (f : spec_float) : Z :=
  match rint f with
  | Some z => if in_int z then z else INT_MIN
  | None => INT_MIN
  end.

(** [cv::saturate_cast<uchar>(int)]. *)
Definition saturate_uchar (v : Z) : Z :=
  if (0 <=? v) && (v <=? 255) then v else if 0 <? v then 255 else 0.

(** The implicit conversion [int -> uchar] of an assignment: modulo 256. *)
Definition to_uchar (v : Z) : Z := v mod 256.

End Ieee.

Import Ieee.

(** ** The toolkit's matrices and the operations the callbacks call *)

Module Cv.

(** A [cv::Mat]: the rows of the image, each a list of pixels. *)
Definition Mat (A : Type) : Type := list (list A).

(** A three-channel pixel ([cv::Vec3b], [cv::Vec3f]). *)
Record Vec3 (A : Type) : Type := mkVec3 { ch0 : A; ch1 : A; ch2 : A }.
Arguments mkVec3 {A} _ _ _.
Arguments ch0 {A} _.
Arguments ch1 {A} _.
Arguments ch2 {A} _.

Definition vec3_map {A B : Type} (f : A -> B) (p : Vec3 A) : Vec3 B :=
  mkVec3 (f (ch0 p)) (f (ch1 p)) (f (ch2 p)).

Definition vec3_zip {A B C : Type} (f : A -> B -> C) (p : Vec3 A) (q : Vec3 B) : Vec3 C :=
  mkVec3 (f (ch0 p) (ch0 q)) (f (ch1 p) (ch1 q)) (f (ch2 p) (ch2 q)).

Definition rows {A : Type} (m : Mat A) : Z := Z.of_nat (length m).
Definition cols {A : Type} (m : Mat A) : Z := Z.of_nat (length (hd [] m)).

(** [Mat::empty()]: no element. *)
Definition empty {A : Type} (m : Mat A) : bool := (rows m =? 0) || (cols m =? 0).

(** The pixel at row [r], column [c]. *)
Definition at_ {A : Type} (m : Mat A) (r c : nat) : option A :=
  match nth_error m r with
  | Some row => nth_error row c
  | None => None
  end.

(** [Mat(size, type, scalar)]: every pixel set to [v]. *)
Definition Mat_fill {A : Type} (nrows ncols : Z) (v : A) : Mat A :=
  repeat (repeat v (Z.to_nat ncols)) (Z.to_nat nrows).

Fixpoint zip_with {A B C : Type} (f : A -> B -> C) (l1 : list A) (l2 : list B) : list C :=
  match l1, l2 with
  | a :: l1', b :: l2' => f a b :: zip_with f l1' l2'
  | _, _ => []
  end.

Fixpoint zip_with3 {A B C D : Type} (f : A -> B -> C -> D)
  (l1 : list A) (l2 : list B) (l3 : list C) : list D :=
  match l1, l2, l3 with
  | a :: l1', b :: l2', c :: l3' => f a b c :: zip_with3 f l1' l2' l3'
  | _, _, _ => []
  end.

(** [cv::split]: the three planes of an image, in channel order. *)
Definition split {A : Type} (m : Mat (Vec3 A)) : list (Mat A) :=
  [map (map ch0) m; map (map ch1) m; map (map ch2) m].

(** [cv::merge] of three planes. *)
Definition merge {A : Type} (planes : list (Mat A)) : Mat (Vec3 A) :=
  match planes with
  | [b; g; r] => zip_with3 (zip_with3 mkVec3) b g r
  | _ => []
  end.

(** [cv::LUT(src, lut, dst)] on one 8-bit plane: [dst(I) = lut(src(I))]. *)
Definition LUT (src : Mat Z) (lut : list Z) : Mat Z :=
  map (map (fun v => nth (Z.to_nat v) lut 0)) src.

(** Assignment to [v[i]] of a [std::vector]. *)
Fixpoint set_nth {A : Type} (i : nat) (x : A) (l : list A) : list A :=
  match l, i with
  | [], _ => []
  | _ :: l', O => x :: l'
  | a :: l', S i' => a :: set_nth i' x l'
  end.

(** [m.convertTo(dst, CV_32FC3)] of an 8-bit image: exact. *)
Definition convertTo_32F (m : Mat (Vec3 Z)) : Mat (Vec3 spec_float) :=
  map (map (vec3_map int_to_float)) m.

(** [m.convertTo(dst, CV_8UC3)] of a float image: [saturate_cast<uchar>]. *)
Definition convertTo_8U (m : Mat (Vec3 spec_float)) : Mat (Vec3 Z) :=
  map (map (vec3_map (fun f => saturate_uchar (cvRound_float f)))) m.

(** [cv::multiply(a, b, dst)] on float images: the product per element. *)
Definition multiply (a b : Mat (Vec3 spec_float)) : Mat (Vec3 spec_float) :=
  zip_with (zip_with (vec3_zip fmul)) a b.

(** Every channel of every pixel is an 8-bit value. *)
Definition is_uchar (v : Z) : Prop := 0 <= v <= 255.
Definition uchar_pixel (p : Vec3 Z) : Prop :=
  is_uchar (ch0 p) /\ is_uchar (ch1 p) /\ is_uchar (ch2 p).
Definition uchar_image (m : Mat (Vec3 Z)) : Prop :=
  Forall (Forall uchar_pixel) m.

End Cv.

Import Cv.

(** ** The colour curve *)

Module Curve.

Local Open Scope R_scope.

(** [std::exp(1.0)]. *)
Definition exp_e : R := exp 1.

(** [cvRound(double)]: the nearest integer, ties to even. *)
Definition cvRound (x : R) : Z :=
  let n := Zfloor x in
  let d := x - IZR n in
  if Rlt_dec d (1 / 2) then n
  else if Rlt_dec (1 / 2) d then (n + 1)%Z
  else if Z.even n then n else (n + 1)%Z.

(** The argument of [cvRound] in the loop body, for parameter [sv] and index [i]:
    [x] is [i / 256] and the value is
    [256 * (1 / (1 + pow(exp_e, -((x - 0.5) / (s / 100)))))]. *)
Definition curve_value (sv i : Z) : R :=
  let x := IZR i / 256 in
  256 * (1 / (1 + Rpower exp_e (- ((x - 5 / 10) / (IZR sv / 100))))).

(** The loop that fills [lut]: entry [i] is [cvRound(...)] stored in a [uchar]. *)
Definition build_lut (sv : Z) : list Z :=
  map (fun i => to_uchar (cvRound (curve_value sv (Z.of_nat i)))) (seq 0 256).

(** The curve as the specification writes it. *)
Definition logistic (t : R) : R := 1 / (1 + exp (- t)).

(** Clamping to the 8-bit range. *)
Definition clamp_uchar (v : Z) : Z := Z.min 255 (Z.max 0 v).

End Curve.

Import Curve.

(** ** The program: global state, the two callbacks and [main] *)

(** What [cv::imwrite] can do: write the file, return [false], or throw a
    [cv::Exception]. *)
Inductive write_result : Type := Written | NotWritten | Raised.

(** A move of one of the two sliders to position [pos]. *)
Inductive slider_move : Type :=
| move_s (pos : Z)
| move_radius (pos : Z).

(** How the process ends: its exit code and the image stored in [output.jpg],
    if any. *)
Record outcome : Type := mkOutcome { exit_code : Z; output_jpg : option (Mat (Vec3 Z)) }.

(** What the command line and [cv::imread] give [main]. *)
Inductive cmdline : Type :=
| NoPicture                          (* help asked for, or no file name *)
| BadArguments                       (* [parser.check()] fails *)
| Picture (decoded : Mat (Vec3 Z)).  (* the result of [cv::imread], empty on failure *)

(** The global variables. *)
Record state : Type := mkState {
  img : Mat (Vec3 Z);
  result : Mat (Vec3 Z);
  display : Mat (Vec3 Z);
  s : Z;
  radius : Z
}.

Definition set_s (pos : Z) (st : state) : state :=
  mkState (img st) (result st) (display st) pos (radius st).

Definition set_radius (pos : Z) (st : state) : state :=
  mkState (img st) (result st) (display st) (s st) pos.

(** The globals when [main] enters [cv::waitKey]. *)
Definition initial (decoded : Mat (Vec3 Z)) : state :=
  mkState decoded [] [] 10 100.

(** The three toolkit calls of [trackbar_color] ([cv::split], [cv::LUT] on
    [bgr[2]], [merge]) for a source image and a table. *)
Definition channel_remap (source : Mat (Vec3 Z)) (lut : list Z) : Mat (Vec3 Z) :=
  let bgr := split source in
  let bgr := set_nth 2 (LUT (nth 2 bgr []) lut) bgr in
  merge bgr.

(** The table [trackbar_color] builds in a given state. *)
Definition color_lut (st : state) : list Z := build_lut (Z.max (s st) 8).

(** [trackbar_color]. *)
Definition trackbar_color (st : state) : state :=
  let s' := Z.max (s st) 8 in
  let lut := build_lut s' in
  mkState (img st) (channel_remap (img st) lut) (display st) s' (radius st).

(** A pixel with channel 2 looked up in a table. *)
Definition remap_pixel (lut : list Z) (p : Vec3 Z) : Vec3 Z :=
  mkVec3 (ch0 p) (ch1 p) (nth (Z.to_nat (ch2 p)) lut 0).

(** The two assignments to [radius] in [trackbar_halo]. *)
Definition halo_radius (ncols nrows r : Z) : Z :=
  let r1 := double_to_int (dmul (int_to_double (Z.min ncols nrows))
                                (ddiv (int_to_double r) (int_to_double 200))) in
  Z.max 1 r1.

(** The multiplication and the conversion back to 8 bits at the end of
    [trackbar_halo]. *)
Definition vignette (src : Mat (Vec3 Z)) (mask : Mat (Vec3 spec_float)) : Mat (Vec3 Z) :=
  convertTo_8U (multiply (convertTo_32F src) mask).

(** Simple toolkit functions to run the program on concrete inputs: a disc
    that replaces the pixels at Euclidean distance at most [r] from the
    centre, no smoothing, and an encoder that throws on an empty image and
    writes every other one.  The theorems below are about any toolkit
    functions; these only serve the examples. *)
Fixpoint mapi_from {A B : Type} (f : Z -> A -> B) (i : Z) (l : list A) : list B :=
  match l with
  | [] => []
  | a :: l' => f i a :: mapi_from f (i + 1) l'
  end.

Definition disc_circle (m : Mat (Vec3 spec_float)) (centre : Z * Z) (r : Z)
  (colour : Vec3 spec_float) : Mat (Vec3 spec_float) :=
  mapi_from (fun y row =>
    mapi_from (fun x px =>
      if (x - fst centre) * (x - fst centre) + (y - snd centre) * (y - snd centre) <=? r * r
      then colour else px) 0 row) 0 m.

Definition no_blur (m : Mat (Vec3 spec_float)) (ksize : Z * Z) : Mat (Vec3 spec_float) := m.

Definition strict_imwrite (m : Mat (Vec3 Z)) : write_result :=
  if empty m then Raised else Written.


Section Session.

(** The toolkit's drawing, smoothing and encoding, which the program only calls:
    [cv::circle(m, centre, radius, colour, -1)], [cv::blur(m, m, ksize)] and
    [cv::imwrite("output.jpg", m)]. *)
Variable cv_circle : Mat (Vec3 spec_float) -> Z * Z -> Z -> Vec3 spec_float -> Mat (Vec3 spec_float).
Variable cv_blur : Mat (Vec3 spec_float) -> Z * Z -> Mat (Vec3 spec_float).
Variable cv_imwrite : Mat (Vec3 Z) -> write_result.

(** The mask [halo] of [trackbar_halo] for an image and a pixel radius. *)
Definition halo_mask (image : Mat (Vec3 Z)) (r : Z) : Mat (Vec3 spec_float) :=
  let halo := Mat_fill (rows image) (cols image) (mkVec3 f_half f_half f_half) in
  let halo := cv_circle halo (Z.quot (cols image) 2, Z.quot (rows image) 2) r (mkVec3 f_one f_one f_one) in
  cv_blur halo (r, r).

(** [trackbar_halo]. *)
Definition trackbar_halo (st : state) : state :=
  let result' := if empty (result st) then img st else result st in
  let radius' := halo_radius (cols (img st)) (rows (img st)) (radius st) in
  let halo := halo_mask (img st) radius' in
  mkState (img st) result' (vignette result' halo) (s st) radius'.

(** A slider move stores the position in the variable bound to the slider and
    calls the callback. *)
Definition on_move (e : slider_move) (st : state) : state :=
  match e with
  | move_s pos => trackbar_color (set_s pos st)
  | move_radius pos => trackbar_halo (set_radius pos st)
  end.

Definition run (moves : list slider_move) (st : state) : state :=
  fold_left (fun acc e => on_move e acc) moves st.

(** The code after [cv::waitKey()] returns [key]. *)
Definition key_gate (st : state) (key : Z) : outcome :=
  let response := to_uchar key in
  if response =? 113 then mkOutcome 0 None
  else if response =? 115 then
    match cv_imwrite (display st) with
    | Written => mkOutcome 0 (Some (display st))
    | NotWritten => mkOutcome 0 None
    | Raised => mkOutcome 1 None
    end
  else mkOutcome 0 None.

(** [main]: [moves] are the slider moves made while [cv::waitKey] waits and
    [keys] the keys pressed afterwards, in order.  [None]: no key ever comes and
    the process stays in [cv::waitKey].  The window calls ([cv::namedWindow],
    [cv::createTrackbar], [cv::imshow], [cv::waitKey], [cv::destroyWindow])
    are taken to return normally; of the toolkit's calls in [main] only
    [cv::imwrite] is given a way to throw. *)
Definition main (cl : cmdline) (moves : list slider_move) (keys : list Z) : option outcome :=
  match cl with
  | NoPicture => Some (mkOutcome 1 None)
  | BadArguments => Some (mkOutcome 1 None)
  | Picture decoded =>
      if empty decoded then Some (mkOutcome 1 None)
      else
        match keys with
        | [] => None
        | key :: _ => Some (key_gate (run moves (initial decoded)) key)
        end
  end.

(** [n] calls of the halo callback in a row. *)
Fixpoint halo_times (n : nat) (st : state) : state :=
  match n with
  | O => st
  | S n' => trackbar_halo (halo_times n' st)
  end.

(** One channel of [vignette]: the 8-bit value [v] converted to [float],
    multiplied by the mask value [m] and converted back. *)
Definition vignette_channel (v : Z) (m : spec_float) : Z :=
  saturate_uchar (cvRound_float (fmul (int_to_float v) m)).

(** A mask value that is a binary32 number and compares [<= 1.0f]. *)
Definition at_most_one (m : spec_float) : Prop :=
  valid_binary 24 128 m = true /\ fleb m f_one = true.

(** Source value [v], mask value [m] and output value [w] of one channel: the
    output is no brighter under a mask value of at most 1.0 and unchanged
    under a mask value of 1.0. *)
Definition darkened (v : Z) (m : spec_float) (w : Z) : Prop :=
  (at_most_one m -> w <= v) /\ (m = f_one -> w = v).

(** A mask all of whose values are at most 1.0. *)
Definition pixel_at_most_one (mk : Vec3 spec_float) : Prop :=
  at_most_one (ch0 mk) /\ at_most_one (ch1 mk) /\ at_most_one (ch2 mk).

Definition mask_at_most_one (mask : Mat (Vec3 spec_float)) : Prop :=
  Forall (Forall pixel_at_most_one) mask.

(** What the program relies on from the toolkit's drawing and smoothing: a
    pixel of the matrix [cv::circle] returns is a pixel of its argument or the
    colour drawn, and [cv::blur], an average, keeps values at most 1.0. *)
Definition circle_contract : Prop :=
  forall (P : Vec3 spec_float -> Prop) m centre r colour,
    Forall (Forall P) m -> P colour -> Forall (Forall P) (cv_circle m centre r colour).

Definition blur_contract : Prop :=
  forall m ksize, mask_at_most_one m -> mask_at_most_one (cv_blur m ksize).

(** The check that the [float] of [v] is [mv * 2^ev] with a mantissa under
    [2^24] and an exponent in -23..0. *)
Definition uchar_float_normal (v : Z) : bool :=
  match int_to_float v with
  | S754_finite false mv ev =>
      (Zpos mv =? v * 2 ^ (- ev)) && (-23 <=? ev) && (ev <=? 0) && (Zpos mv <? 2 ^ 24)
  | _ => false
  end.

(** The check that a mask value of [1.0f] gives back [v]. *)
Definition unit_mask_keeps (v : Z) : bool := vignette_channel v f_one =? v.

(** The row lengths of a matrix, and matrices all of whose rows have the
    length of the first one. *)
Definition shape {A : Type} (m : Mat A) : list nat := map (@length A) m.

Definition rectangular {A : Type} (m : Mat A) : Prop :=
  Forall (fun row => length row = length (hd [] m)) m.

(** What the program relies on from the toolkit for sizes: [cv::circle] draws
    in place and [cv::blur] returns a matrix of the size of its argument. *)
Definition circle_keeps_shape : Prop :=
  forall m centre r colour, shape (cv_circle m centre r colour) = shape m.

Definition blur_keeps_shape : Prop :=
  forall m ksize, shape (cv_blur m ksize) = shape m.

(** The three buffers hold 8-bit values. *)
Definition buffers_8bit (st : state) : Prop :=
  uchar_image (img st) /\ uchar_image (result st) /\ uchar_image (display st).

(** [result] is unset or has the size of the image. *)
Definition result_sized (st : state) : Prop :=
  result st = [] \/ shape (result st) = shape (img st).


(** A mask value that is a binary32 number and compares [>= 0.5f], and masks
    all of whose values lie between 0.5 and 1.0. *)
Definition at_least_half (m : spec_float) : Prop :=
  valid_binary 24 128 m = true /\ fleb f_half m = true.

Definition half_to_one (m : spec_float) : Prop := at_least_half m /\ at_most_one m.

Definition mask_half_to_one (mask : Mat (Vec3 spec_float)) : Prop :=
  Forall (Forall (fun mk => half_to_one (ch0 mk) /\ half_to_one (ch1 mk) /\ half_to_one (ch2 mk)))
         mask.

(** [cv::blur] averages: from values between 0.5 and 1.0 it gives values
    between 0.5 and 1.0. *)
Definition blur_averages : Prop :=
  forall m ksize, mask_half_to_one m -> mask_half_to_one (cv_blur m ksize).

(** Half of an 8-bit value, rounded to the nearest integer, ties to even. *)
Definition half_even (v : Z) : Z := shift_round_even v 1.

(** The check that the [float] of [v] is normal: [mv * 2^ev] with
    [2^23 <= mv < 2^24] and an exponent in -23..-16. *)
Definition uchar_float_tight (v : Z) : bool :=
  match int_to_float v with
  | S754_finite false mv ev =>
      (Zpos mv =? v * 2 ^ (- ev)) && (-23 <=? ev) && (ev <=? -16)
      && (2 ^ 23 <=? Zpos mv) && (Zpos mv <? 2 ^ 24)
  | _ => false
  end.

(** The check that a mask value of [0.5f] gives half of [v]. *)
Definition half_mask_halves (v : Z) : bool := vignette_channel v f_half =? half_even v.

(** The check on the quotient [r / 200.0] of the halo callback, for a slider
    position [r]: it is [mq * 2^xq] with [2^52 <= mq < 2^53] and [xq <= -53],
    within half a unit of the last place of [r / 200]. *)
Definition slider_quotient_ok (r : Z) : bool :=
  match ddiv (int_to_double r) (int_to_double 200) with
  | S754_finite false mq xq =>
      (2 ^ 52 <=? Zpos mq) && (Zpos mq <? 2 ^ 53) && (-62 <=? xq) && (xq <=? -53)
      && (Z.abs (200 * Zpos mq - r * 2 ^ (- xq)) <=? 100)
  | _ => false
  end.

(** Whether the quotient [r / 200.0], as rounded, is at least [r / 200]. *)
Definition quotient_not_below (r : Z) : bool :=
  match ddiv (int_to_double r) (int_to_double 200) with
  | S754_finite false mq xq => r * 2 ^ (- xq) <=? 200 * Zpos mq
  | S754_zero _ => true
  | _ => false
  end.

(** ** Lists and matrices *)

Lemma zip_with3_map {A B C D E : Type} (f : B -> C -> D -> E)
  (a : A -> B) (b : A -> C) (c : A -> D) (l : list A) :
  zip_with3 f (map a l) (map b l) (map c l) = map (fun x => f (a x) (b x) (c x)) l.
Proof.
  induction l as [|x l IH]; simpl; [reflexivity|].
  now rewrite IH.
Qed.

Lemma nth_error_zip_with {A B C : Type} (f : A -> B -> C) (l1 : list A) (l2 : list B) (n : nat) :
  nth_error (zip_with f l1 l2) n =
  match nth_error l1 n, nth_error l2 n with
  | Some a, Some b => Some (f a b)
  | _, _ => None
  end.
Proof.
  revert l2 n.
  induction l1 as [|a l1 IH]; intros [|b l2] [|n]; simpl; try reflexivity.
  - now destruct (nth_error l1 n).
  - apply IH.
Qed.

Lemma at_map {A B : Type} (f : A -> B) (m : Mat A) (r c : nat) :
  at_ (map (map f) m) r c = option_map f (at_ m r c).
Proof.
  unfold at_.
  rewrite nth_error_map.
  destruct (nth_error m r) as [row|]; simpl; [|reflexivity].
  apply nth_error_map.
Qed.

Lemma at_zip_with {A B C : Type} (f : A -> B -> C) (a : Mat A) (b : Mat B) (r c : nat) :
  at_ (zip_with (zip_with f) a b) r c =
  match at_ a r c, at_ b r c with
  | Some x, Some y => Some (f x y)
  | _, _ => None
  end.
Proof.
  unfold at_.
  rewrite nth_error_zip_with.
  destruct (nth_error a r) as [ra|]; [|reflexivity].
  destruct (nth_error b r) as [rb|].
  - apply nth_error_zip_with.
  - now destruct (nth_error ra c).
Qed.

Lemma rows_map {A B : Type} (f : A -> B) (m : Mat A) : rows (map (map f) m) = rows m.
Proof. unfold rows. now rewrite length_map. Qed.

Lemma cols_map {A B : Type} (f : A -> B) (m : Mat A) : cols (map (map f) m) = cols m.
Proof. unfold cols. destruct m as [|row m]; simpl; [reflexivity|]. now rewrite length_map. Qed.

Lemma empty_map {A B : Type} (f : A -> B) (m : Mat A) : empty (map (map f) m) = empty m.
Proof. unfold empty. now rewrite rows_map, cols_map. Qed.

(** Split, look-up on plane 2 and merge amount to one pass over the pixels. *)
Lemma channel_remap_map (source : Mat (Vec3 Z)) (lut : list Z) :
  channel_remap source lut = map (map (remap_pixel lut)) source.
Proof.
  unfold channel_remap, split, LUT, merge; simpl.
  assert (Hplane : map (map (fun v => nth (Z.to_nat v) lut 0)) (map (map ch2) source)
                   = map (map (fun p => nth (Z.to_nat (ch2 p)) lut 0)) source).
  { rewrite map_map. apply map_ext; intros row. apply map_map. }
  rewrite Hplane, zip_with3_map.
  apply map_ext; intros row.
  apply zip_with3_map.
Qed.

(** ** The colour callback *)

Lemma result_trackbar_color (st : state) :
  result (trackbar_color st) = channel_remap (img st) (color_lut st).
Proof. reflexivity. Qed.

(** C4: for every source image and table, the split / look-up / merge of the
    colour callback gives an image of the same dimensions whose pixel at every
    position has channels 0 and 1 of the source pixel and channel 2 equal to
    the table entry at the source value; the callback stores that image in
    [result] and leaves [img] as it was. *)
Theorem color_filter_remaps_channel_2 (source : Mat (Vec3 Z)) (lut : list Z) :
  rows (channel_remap source lut) = rows source /\
  cols (channel_remap source lut) = cols source /\
  (forall r c : nat,
     at_ (channel_remap source lut) r c =
     option_map (fun p => mkVec3 (ch0 p) (ch1 p) (nth (Z.to_nat (ch2 p)) lut 0))
                (at_ source r c)) /\
  (forall st : state,
     result (trackbar_color st) = channel_remap (img st) (color_lut st) /\
     img (trackbar_color st) = img st).
Proof.
  rewrite channel_remap_map.
  repeat split.
  - apply rows_map.
  - apply cols_map.
  - intros r c. apply (at_map (remap_pixel lut)).
Qed.

(** ** The halo callback *)

Lemma img_trackbar_halo (st : state) : img (trackbar_halo st) = img st.
Proof. reflexivity. Qed.

Lemma s_trackbar_halo (st : state) : s (trackbar_halo st) = s st.
Proof. reflexivity. Qed.

Lemma radius_trackbar_halo (st : state) :
  radius (trackbar_halo st) = halo_radius (cols (img st)) (rows (img st)) (radius st).
Proof. reflexivity. Qed.

Lemma empty_result_trackbar_color (st : state) :
  empty (result (trackbar_color st)) = empty (img st).
Proof.
  rewrite result_trackbar_color, channel_remap_map.
  apply empty_map.
Qed.

Lemma halo_times_img (n : nat) (st : state) : img (halo_times n st) = img st.
Proof. induction n as [|n IH]; cbn [halo_times]; [reflexivity|]. now rewrite img_trackbar_halo. Qed.

Lemma halo_times_s (n : nat) (st : state) : s (halo_times n st) = s st.
Proof. induction n as [|n IH]; cbn [halo_times]; [reflexivity|]. now rewrite s_trackbar_halo. Qed.

Lemma halo_radius_min (ncols nrows r : Z) :
  halo_radius ncols nrows r = halo_radius (Z.min ncols nrows) (Z.min ncols nrows) r.
Proof. unfold halo_radius. now rewrite Z.min_id. Qed.

Lemma halo_radius_pos (ncols nrows r : Z) : 1 <= halo_radius ncols nrows r.
Proof. unfold halo_radius. lia. Qed.

Lemma forallb_range (f : Z -> bool) (lo len : nat) :
  forallb f (map Z.of_nat (seq lo len)) = true ->
  forall z : Z, Z.of_nat lo <= z < Z.of_nat lo + Z.of_nat len -> f z = true.
Proof.
  intros Hall z Hz.
  rewrite forallb_forall in Hall.
  apply Hall.
  rewrite <- (Z2Nat.id z) by lia.
  apply in_map, in_seq. lia.
Qed.

(** ** Sequences of slider moves *)

Lemma run_cons (e : slider_move) (moves : list slider_move) (st : state) :
  run (e :: moves) st = run moves (on_move e st).
Proof. reflexivity. Qed.

Lemma img_on_move (e : slider_move) (st : state) : img (on_move e st) = img st.
Proof. destruct e; reflexivity. Qed.

Lemma img_run (moves : list slider_move) (st : state) : img (run moves st) = img st.
Proof.
  revert st; induction moves as [|e moves IH]; intros st; [reflexivity|].
  now rewrite run_cons, IH, img_on_move.
Qed.

Lemma s_run_radius (ps : list Z) (st : state) : s (run (map move_radius ps) st) = s st.
Proof.
  revert st; induction ps as [|p ps IH]; intros st; [reflexivity|].
  simpl map. now rewrite run_cons, IH.
Qed.

Lemma display_run_s (ps : list Z) (st : state) : display (run (map move_s ps) st) = display st.
Proof.
  revert st; induction ps as [|p ps IH]; intros st; [reflexivity|].
  simpl map. now rewrite run_cons, IH.
Qed.

(** The colour result depends on the original image and on [s] only. *)
Lemma result_trackbar_color_eq (st1 st2 : state) :
  img st1 = img st2 -> Z.max (s st1) 8 = Z.max (s st2) 8 ->
  result (trackbar_color st1) = result (trackbar_color st2).
Proof.
  intros Himg Hs.
  rewrite !result_trackbar_color.
  unfold color_lut.
  now rewrite Himg, Hs.
Qed.

(** C8: the colour callback computes [result] from [img], which no callback
    changes; a second colour callback at the same slider position gives the
    same [result] as the first, also with halo callbacks in between. *)
Theorem color_filter_idempotent (st : state) (pos : Z) (ps : list Z) (n : nat) :
  result (on_move (move_s pos) (run (map move_radius ps) (on_move (move_s pos) st)))
    = result (on_move (move_s pos) st) /\
  result (trackbar_color (halo_times n (trackbar_color st))) = result (trackbar_color st) /\
  result (trackbar_color (trackbar_color st)) = result (trackbar_color st) /\
  (forall moves : list slider_move, img (run moves st) = img st).
Proof.
  split; [|split; [|split]].
  - cbn [on_move].
    apply result_trackbar_color_eq.
    + cbn [set_s img]. now rewrite img_run.
    + reflexivity.
  - apply result_trackbar_color_eq.
    + now rewrite halo_times_img.
    + rewrite halo_times_s. cbn [trackbar_color s]. lia.
  - apply result_trackbar_color_eq; [reflexivity|].
    cbn [trackbar_color s]. lia.
  - intros moves. apply img_run.
Qed.

(** ** The key pressed at the end *)

(** C9, as the code has it: [main] reads one key.  The key [q] ends the process
    with code 0 and no file; the key [s] passes [display] to [cv::imwrite];
    every other key also ends the process with code 0 and no file; without a
    key the process stays in [cv::waitKey]. *)
Theorem key_gate_reads_one_key (decoded : Mat (Vec3 Z)) (moves : list slider_move)
  (key : Z) (keys : list Z) :
  empty decoded = false ->
  let st := run moves (initial decoded) in
  main (Picture decoded) moves [] = None /\
  (to_uchar key = 113 ->
   main (Picture decoded) moves (key :: keys) = Some (mkOutcome 0 None)) /\
  (to_uchar key = 115 ->
   main (Picture decoded) moves (key :: keys) =
   Some (match cv_imwrite (display st) with
         | Written => mkOutcome 0 (Some (display st))
         | NotWritten => mkOutcome 0 None
         | Raised => mkOutcome 1 None
         end)) /\
  (to_uchar key <> 113 -> to_uchar key <> 115 ->
   main (Picture decoded) moves (key :: keys) = Some (mkOutcome 0 None)).
Proof.
  intros Hdec st.
  unfold main. rewrite Hdec.
  split; [reflexivity|].
  unfold key_gate.
  split; [|split].
  - intros Hq. now rewrite Hq.
  - intros Hs. now rewrite Hs.
  - intros Hq Hs.
    destruct (Z.eqb_spec (to_uchar key) 113); [contradiction|].
    destruct (Z.eqb_spec (to_uchar key) 115); [contradiction|].
    reflexivity.
Qed.


(** ** The colour curve: bounds on the exponential *)

Section CurveBounds.

Local Open Scope R_scope.

Lemma exp_double_le (x y a b : R) :
  y = 2 * x -> exp x <= a -> a * a <= b -> exp y <= b.
Proof.
  intros -> Hx Hab.
  replace (2 * x) with (x + x) by lra.
  rewrite exp_plus.
  pose proof (exp_pos x).
  nra.
Qed.

Lemma exp_double_ge (x y a b : R) :
  y = 2 * x -> 0 <= a -> a <= exp x -> b <= a * a -> b <= exp y.
Proof.
  intros -> Ha Hx Hab.
  replace (2 * x) with (x + x) by lra.
  rewrite exp_plus.
  nra.
Qed.

Lemma exp_small_le (x : R) : x < 1 -> exp x <= / (1 - x).
Proof.
  intros Hx.
  pose proof (exp_ineq1_le (- x)) as Hle.
  rewrite exp_Ropp in Hle.
  pose proof (exp_pos x) as Hpos.
  apply (Rmult_le_reg_r (1 - x)); [lra|].
  rewrite Rinv_l by lra.
  assert (Hinv : (1 - x) * exp x <= / exp x * exp x)
    by (apply Rmult_le_compat_r; lra).
  rewrite Rinv_l in Hinv by lra.
  lra.
Qed.

Ltac exp_up H := refine (exp_double_le _ _ _ _ _ H _); lra.
Ltac exp_down H := refine (exp_double_ge _ _ _ _ _ _ H _); lra.

(** The largest argument of the exponential for [s] in 8..20 is
    [(255/256 - 1/2) / (8/100) = 3175/512]. *)
Lemma exp_curve_top : exp (3175 / 512) < 511.
Proof.
  assert (H0 : exp (3175 / 512 / 4096) <= 1.0015162536).
  { eapply Rle_trans; [apply exp_small_le; lra|].
    apply (Rmult_le_reg_r (1 - 3175 / 512 / 4096)); [lra|].
    rewrite Rinv_l by lra. lra. }
  assert (H1 : exp (3175 / 512 / 2048) <= 1.003034807) by exp_up H0.
  assert (H2 : exp (3175 / 512 / 1024) <= 1.006078825) by exp_up H1.
  assert (H3 : exp (3175 / 512 / 512) <= 1.012194603) by exp_up H2.
  assert (H4 : exp (3175 / 512 / 256) <= 1.024537915) by exp_up H3.
  assert (H5 : exp (3175 / 512 / 128) <= 1.04967794) by exp_up H4.
  assert (H6 : exp (3175 / 512 / 64) <= 1.101823778) by exp_up H5.
  assert (H7 : exp (3175 / 512 / 32) <= 1.214015638) by exp_up H6.
  assert (H8 : exp (3175 / 512 / 16) <= 1.47383397) by exp_up H7.
  assert (H9 : exp (3175 / 512 / 8) <= 2.172186572) by exp_up H8.
  assert (H10 : exp (3175 / 512 / 4) <= 4.718394504) by exp_up H9.
  assert (H11 : exp (3175 / 512 / 2) <= 22.263246696) by exp_up H10.
  assert (H12 : exp (3175 / 512) <= 495.652153447) by exp_up H11.
  lra.
Qed.

Lemma exp_7_gt_511 : 511 < exp 7.
Proof.
  assert (H0 : 71 / 64 <= exp (7 / 64)).
  { pose proof (exp_ineq1_le (7 / 64)). lra. }
  assert (H1 : 1.230712 <= exp (7 / 32)) by exp_down H0.
  assert (H2 : 1.514652 <= exp (7 / 16)) by exp_down H1.
  assert (H3 : 2.29417 <= exp (7 / 8)) by exp_down H2.
  assert (H4 : 5.263215 <= exp (7 / 4)) by exp_down H3.
  assert (H5 : 27.701432 <= exp (7 / 2)) by exp_down H4.
  assert (H6 : 767.369334 <= exp 7) by exp_down H5.
  lra.
Qed.

Lemma Rpower_exp_e (y : R) : Rpower exp_e y = exp y.
Proof. unfold Rpower, exp_e. now rewrite ln_exp, Rmult_1_r. Qed.

(** The value the code rounds is 256 times the logistic curve of the
    specification. *)
Lemma curve_value_logistic (sv i : Z) :
  curve_value sv i = 256 * logistic ((IZR i / 256 - 1 / 2) / (IZR sv / 100)).
Proof.
  unfold curve_value, logistic.
  rewrite Rpower_exp_e.
  replace (5 / 10) with (1 / 2) by lra.
  reflexivity.
Qed.

Lemma logistic_range (t : R) : 0 < 256 * logistic t < 256.
Proof.
  unfold logistic.
  pose proof (exp_pos (- t)) as He.
  assert (H1 : 0 < / (1 + exp (- t))) by (apply Rinv_0_lt_compat; lra).
  assert (H2 : / (1 + exp (- t)) < 1).
  { rewrite <- Rinv_1 at 2. apply Rinv_lt_contravar; lra. }
  unfold Rdiv. rewrite Rmult_1_l. lra.
Qed.

(** Below [exp t = 511] the curve stays under 255.5, above it over 255.5. *)
Lemma logistic_lt_half (t : R) : exp t < 511 -> 256 * logistic t < 511 / 2.
Proof.
  intros Ht.
  unfold logistic.
  pose proof (exp_pos t) as Hpos.
  assert (He : / 511 < exp (- t)).
  { rewrite exp_Ropp. apply Rinv_lt_contravar; [nra|lra]. }
  assert (H2 : / (1 + exp (- t)) < 511 / 512).
  { replace (511 / 512) with (/ (512 / 511)) by lra.
    apply Rinv_lt_contravar; [|lra].
    pose proof (exp_pos (- t)). nra. }
  unfold Rdiv at 1. rewrite Rmult_1_l. lra.
Qed.

Lemma logistic_gt_half (t : R) : 511 < exp t -> 511 / 2 < 256 * logistic t.
Proof.
  intros Ht.
  unfold logistic.
  assert (He : exp (- t) < / 511).
  { rewrite exp_Ropp. apply Rinv_lt_contravar; [nra|lra]. }
  pose proof (exp_pos (- t)) as Hpos.
  assert (H2 : 511 / 512 < / (1 + exp (- t))).
  { replace (511 / 512) with (/ (512 / 511)) by lra.
    apply Rinv_lt_contravar; [nra|lra]. }
  unfold Rdiv at 2. rewrite Rmult_1_l. lra.
Qed.

Lemma curve_arg_le (sv i : Z) :
  (8 <= sv <= 20)%Z -> (0 <= i <= 255)%Z ->
  (IZR i / 256 - 1 / 2) / (IZR sv / 100) <= 3175 / 512.
Proof.
  intros [Hs1 Hs2] [Hi1 Hi2].
  apply IZR_le in Hs1, Hs2, Hi1, Hi2.
  apply (Rmult_le_reg_r (IZR sv / 100)); [lra|].
  unfold Rdiv at 1.
  rewrite Rmult_assoc, Rinv_l by lra.
  lra.
Qed.

Lemma curve_value_range (sv i : Z) :
  (8 <= sv <= 20)%Z -> (0 <= i <= 255)%Z ->
  0 < curve_value sv i < 511 / 2.
Proof.
  intros Hs Hi.
  rewrite curve_value_logistic.
  split; [apply logistic_range|].
  apply logistic_lt_half.
  pose proof (curve_arg_le sv i Hs Hi) as [Hlt | Heq].
  - eapply Rlt_trans; [apply exp_increasing; exact Hlt|apply exp_curve_top].
  - rewrite Heq. apply exp_curve_top.
Qed.

Lemma cvRound_range (x : R) : 0 <= x < 511 / 2 -> (0 <= cvRound x <= 255)%Z.
Proof.
  intros [H0 H1].
  unfold cvRound.
  pose proof (Zfloor_bound x) as [Hlo Hhi].
  assert (Hn0 : (0 <= Zfloor x)%Z) by (apply Zfloor_lub; simpl; lra).
  assert (Hn1 : (Zfloor x <= 255)%Z).
  { apply Z.lt_succ_r, lt_IZR. simpl. lra. }
  destruct (Rlt_dec (x - IZR (Zfloor x)) (1 / 2)) as [Hd | Hd]; [lia|].
  assert (Hn2 : (Zfloor x <= 254)%Z).
  { apply Z.lt_succ_r, lt_IZR. simpl. lra. }
  destruct (Rlt_dec (1 / 2) (x - IZR (Zfloor x))); [lia|].
  destruct (Z.even (Zfloor x)); lia.
Qed.

Lemma nth_build_lut (sv : Z) (i : nat) :
  (i < 256)%nat ->
  nth i (build_lut sv) 0%Z = to_uchar (cvRound (curve_value sv (Z.of_nat i))).
Proof.
  intros Hi.
  unfold build_lut.
  rewrite (nth_indep _ 0%Z (to_uchar (cvRound (curve_value sv (Z.of_nat 0)))))
    by (rewrite length_map, length_seq; exact Hi).
  rewrite (map_nth (fun k => to_uchar (cvRound (curve_value sv (Z.of_nat k))))).
  now rewrite seq_nth.
Qed.




End CurveBounds.

(** ** The table of the colour callback *)

Lemma cvRound_curve_range (sv i : Z) :
  8 <= sv <= 20 -> 0 <= i <= 255 -> 0 <= cvRound (curve_value sv i) <= 255.
Proof.
  intros Hs Hi.
  pose proof (curve_value_range sv i Hs Hi) as [Hlo Hhi].
  apply cvRound_range.
  split; [apply Rlt_le|]; assumption.
Qed.

(** [cvRound] gives an integer nearest to its argument, and the even one when
    two are equally near. *)
Lemma cvRound_nearest (x : R) :
  (Rabs (IZR (cvRound x) - x) <= 1 / 2)%R /\
  (Rabs (IZR (cvRound x) - x) = (1 / 2)%R -> Z.even (cvRound x) = true).
Proof.
  pose proof (Zfloor_bound x) as [Hlo Hhi].
  unfold cvRound.
  destruct (Rlt_dec (x - IZR (Zfloor x)) (1 / 2)) as [H1 | H1].
  - split.
    + unfold Rabs. destruct (Rcase_abs _); lra.
    + unfold Rabs. destruct (Rcase_abs _); lra.
  - destruct (Rlt_dec (1 / 2) (x - IZR (Zfloor x))) as [H2 | H2].
    + rewrite plus_IZR. split.
      * unfold Rabs. destruct (Rcase_abs _); lra.
      * unfold Rabs. destruct (Rcase_abs _); lra.
    + destruct (Z.even (Zfloor x)) eqn:Heven.
      * split; [|intros _; exact Heven].
        unfold Rabs. destruct (Rcase_abs _); lra.
      * split.
        -- rewrite plus_IZR. unfold Rabs. destruct (Rcase_abs _); lra.
        -- intros _. rewrite Z.add_1_r, Z.even_succ, <- Z.negb_even, Heven. reflexivity.
Qed.

(** C1: for an effective [s] in 8..20 (the slider value, raised to 8 if
    smaller) and every index [i] in 0..255, entry [i] of the table the colour
    callback builds is [256 * logistic ((i/256 - 1/2) / (s/100))] rounded,
    with [logistic t = 1 / (1 + e^(-t))]: it is an integer at distance at
    most 1/2 from that value, the even one if the distance is 1/2 (arithmetic
    of the curve taken exactly). *)
Theorem lut_entry_is_rounded_logistic (st : state) (i : Z) :
  s st <= 20 ->
  0 <= i <= 255 ->
  let sv := Z.max (s st) 8 in
  let v := (256 * logistic ((IZR i / 256 - 1 / 2) / (IZR sv / 100)))%R in
  let entry := nth (Z.to_nat i) (color_lut st) 0 in
  (Rabs (IZR entry - v) <= 1 / 2)%R /\
  (Rabs (IZR entry - v) = (1 / 2)%R -> Z.even entry = true) /\
  0 <= entry <= 255.
Proof.
  intros Hs Hi sv v entry.
  pose proof (cvRound_curve_range sv i ltac:(unfold sv; lia) Hi) as Hrange.
  assert (Hentry : entry = cvRound v).
  { unfold entry, color_lut. fold sv.
    rewrite nth_build_lut by lia.
    rewrite Z2Nat.id by lia.
    unfold v. rewrite <- curve_value_logistic.
    unfold to_uchar. apply Z.mod_small. lia. }
  rewrite Hentry.
  destruct (cvRound_nearest v) as [Hnear Htie].
  split; [exact Hnear|].
  split; [exact Htie|].
  unfold v. rewrite <- curve_value_logistic. exact Hrange.
Qed.


(** The floor of 8 on [s] matters: the loop run with [s = 7], which the
    callback never does, rounds the value at index 255 to 256 and stores 0. *)
Lemma lut_store_wraps_at_256 :
  cvRound (curve_value 7 255) = 256 /\
  nth 255 (build_lut 7) 0 = 0 /\
  clamp_uchar (cvRound (curve_value 7 255)) = 255.
Proof.
  assert (Hv : (511 / 2 < curve_value 7 255 < 256)%R).
  { rewrite curve_value_logistic.
    split; [|apply logistic_range].
    apply logistic_gt_half.
    eapply Rlt_trans; [apply exp_7_gt_511|].
    apply exp_increasing. lra. }
  assert (Hfloor : Zfloor (curve_value 7 255) = 255).
  { apply Zfloor_eq. simpl. lra. }
  assert (Hround : cvRound (curve_value 7 255) = 256).
  { unfold cvRound. rewrite Hfloor.
    destruct (Rlt_dec (curve_value 7 255 - 255) (1 / 2)) as [Hd | Hd]; [lra|].
    destruct (Rlt_dec (1 / 2) (curve_value 7 255 - 255)) as [Hd' | Hd']; [reflexivity|lra]. }
  split; [exact Hround|].
  split.
  - rewrite nth_build_lut by lia.
    change (Z.of_nat 255) with 255.
    now rewrite Hround.
  - now rewrite Hround.
Qed.

(** ** Rounding of a binary32 product

    [SFmul] rounds the exact product [N * 2^e] by shifting the mantissa right
    ([shr]) and rounding to nearest, ties to even.  The lemmas below bound the
    result from above: if the exact product is at most a value of the grid the
    result lives on, so is the result. *)

Lemma iter_pos_nat {A : Type} (f : A -> A) (p : positive) (x : A) :
  SpecFloat.iter_pos f p x = Nat.iter (Pos.to_nat p) f x.
Proof.
  revert x; induction p as [p IH | p IH |]; intros x; cbn [SpecFloat.iter_pos].
  - rewrite !IH, Pos2Nat.inj_xI.
    rewrite <- Nat.iter_add, <- Nat.iter_succ_r.
    f_equal. lia.
  - rewrite !IH, Pos2Nat.inj_xO.
    rewrite <- Nat.iter_add.
    f_equal. lia.
  - reflexivity.
Qed.

(** One shift halves the mantissa, keeps the bit shifted out as round bit and
    accumulates the older ones in the sticky bit. *)
Lemma shr_1_nonneg (m : Z) (r st : bool) :
  0 <= m -> shr_1 (Build_shr_record m r st) = Build_shr_record (m / 2) (Z.odd m) (r || st).
Proof.
  intros Hm.
  rewrite <- Z.div2_div.
  destruct m as [|[p|p|]|p]; try reflexivity; lia.
Qed.

(** [n] shifts divide by [2^n]; when the division is exact, round and sticky
    bits stay clear. *)
Lemma shr_iter (N : Z) (n : nat) :
  0 <= N ->
  let mrs := Nat.iter n shr_1 (Build_shr_record N false false) in
  shr_m mrs = N / 2 ^ Z.of_nat n /\
  ((2 ^ Z.of_nat n | N) -> shr_r mrs = false /\ shr_s mrs = false).
Proof.
  intros HN.
  induction n as [|n IH]; cbn zeta in *.
  - cbn. rewrite Z.div_1_r. auto.
  - rewrite Nat.iter_succ.
    destruct (Nat.iter n shr_1 (Build_shr_record N false false)) as [m r st].
    cbn [shr_m shr_r shr_s] in IH.
    destruct IH as [Hm Hex].
    assert (Hpow : 0 < 2 ^ Z.of_nat n) by (apply Z.pow_pos_nonneg; lia).
    assert (Hm0 : 0 <= m) by (rewrite Hm; apply Z.div_pos; lia).
    rewrite shr_1_nonneg by exact Hm0.
    cbn [shr_m shr_r shr_s].
    rewrite Nat2Z.inj_succ, Z.pow_succ_r by lia.
    split.
    + rewrite Hm, Z.div_div by lia. f_equal. lia.
    + intros [c Hc].
      assert (Hdiv : (2 ^ Z.of_nat n | N)) by (exists (c * 2); lia).
      destruct (Hex Hdiv) as [-> ->].
      split; [|reflexivity].
      rewrite Hm.
      replace N with ((c * 2) * 2 ^ Z.of_nat n) by lia.
      rewrite Z.div_mul by lia.
      rewrite Z.mul_comm, Z.odd_mul. reflexivity.
Qed.

Lemma shr_exact (N e n : Z) :
  0 <= N ->
  exists mrs,
    shr (Build_shr_record N false false) e n = (mrs, e + Z.max n 0) /\
    shr_m mrs = N / 2 ^ Z.max n 0 /\
    ((2 ^ Z.max n 0 | N) -> shr_r mrs = false /\ shr_s mrs = false).
Proof.
  intros HN.
  destruct n as [|p|p]; cbn [shr].
  - exists (Build_shr_record N false false).
    rewrite Z.max_id, Z.add_0_r, Z.div_1_r. auto.
  - exists (SpecFloat.iter_pos shr_1 p (Build_shr_record N false false)).
    rewrite Z.max_l by lia.
    split; [reflexivity|].
    rewrite iter_pos_nat.
    rewrite <- (positive_nat_Z p).
    apply (shr_iter N (Pos.to_nat p) HN).
  - exists (Build_shr_record N false false).
    rewrite Z.max_r by lia.
    rewrite Z.add_0_r, Z.div_1_r. auto.
Qed.

Lemma round_nearest_even_bounds (q : Z) (l : location) :
  q <= round_nearest_even q l <= q + 1.
Proof.
  destruct l as [|[| |]]; cbn [round_nearest_even]; try lia.
  destruct (Z.even q); lia.
Qed.

Lemma digits2_pos_size (p : positive) : digits2_pos p = Pos.size p.
Proof. induction p as [p IH | p IH |]; cbn; now rewrite ?IH. Qed.

Lemma digits2_pos_le (p : positive) (n : Z) :
  0 <= n -> Zpos p < 2 ^ n -> Zpos (digits2_pos p) <= n.
Proof.
  intros Hn Hp.
  rewrite digits2_pos_size.
  pose proof (Pos.size_le p) as Hsz.
  destruct (Z.le_gt_cases (Zpos (Pos.size p)) n) as [Hle | Hgt]; [exact Hle|exfalso].
  assert (H2 : 2 ^ (n + 1) <= 2 ^ Zpos (Pos.size p)) by (apply Z.pow_le_mono_r; lia).
  assert (H3 : 2 ^ Zpos (Pos.size p) <= Zpos p~0).
  { rewrite <- Pos2Z.inj_pow. apply Pos2Z.pos_le_pos. exact Hsz. }
  rewrite Z.pow_add_r, Z.pow_1_r in H2 by lia.
  lia.
Qed.

(** Rounding [N / 2^k] to nearest stays at most [U] when [N <= U * 2^k]. *)
Lemma round_shifted_le (N U k : Z) (mrs : shr_record) :
  0 <= N -> 0 <= k -> N <= U * 2 ^ k ->
  shr_m mrs = N / 2 ^ k ->
  ((2 ^ k | N) -> shr_r mrs = false /\ shr_s mrs = false) ->
  0 <= round_nearest_even (shr_m mrs) (loc_of_shr_record mrs) <= U.
Proof.
  intros HN Hk HU Hm Hex.
  assert (Hpow : 0 < 2 ^ k) by (apply Z.pow_pos_nonneg; lia).
  pose proof (Z.div_mod N (2 ^ k) ltac:(lia)) as Hdm.
  pose proof (Z.mod_pos_bound N (2 ^ k) Hpow) as Hr.
  assert (Hq0 : 0 <= N / 2 ^ k) by (apply Z.div_pos; lia).
  pose proof (round_nearest_even_bounds (shr_m mrs) (loc_of_shr_record mrs)) as Hb.
  rewrite Hm in *.
  split; [lia|].
  destruct (Z.eq_dec (N mod 2 ^ k) 0) as [Hz | Hnz].
  - assert (Hdiv : (2 ^ k | N)) by (exists (N / 2 ^ k); lia).
    destruct (Hex Hdiv) as [Hr0 Hs0].
    destruct mrs as [m r st]; cbn in Hr0, Hs0 |- *; subst r st.
    cbn [round_nearest_even].
    nia.
  - nia.
Qed.

(** The rounding of [N * 2^e]: with [k] the first shift, [N <= U * 2^k] gives
    a result [m * 2^(e+j)] with [m * 2^(j-k) <= U]. *)
Lemma binary_round_aux_le (N : positive) (e U : Z) :
  let k := Z.max (fexp 24 128 (Zdigits2 (Zpos N) + e) - e) 0 in
  Zpos N <= U * 2 ^ k ->
  match binary_round_aux 24 128 false (Zpos N) e loc_Exact with
  | S754_finite sg m x =>
      sg = false /\ exists j, k <= j /\ x = e + j /\ Zpos m * 2 ^ (j - k) <= U
  | _ => True
  end.
Proof.
  intros k HU.
  unfold binary_round_aux, shr_fexp.
  cbn [shr_record_of_loc].
  destruct (shr_exact (Zpos N) e (fexp 24 128 (Zdigits2 (Zpos N) + e) - e) ltac:(lia))
    as (mrs1 & Heq1 & Hm1 & Hex1).
  fold k in Heq1, Hm1, Hex1.
  rewrite Heq1.
  pose proof (round_shifted_le (Zpos N) U k mrs1 ltac:(lia) ltac:(lia) HU Hm1 Hex1) as [HN1 HN1U].
  set (N1 := round_nearest_even (shr_m mrs1) (loc_of_shr_record mrs1)) in *.
  destruct (shr_exact N1 (e + k) (fexp 24 128 (Zdigits2 N1 + (e + k)) - (e + k)) HN1)
    as (mrs2 & Heq2 & Hm2 & _).
  set (k2 := Z.max (fexp 24 128 (Zdigits2 N1 + (e + k)) - (e + k)) 0) in *.
  rewrite Heq2.
  destruct (shr_m mrs2) as [|m|m] eqn:Hm; [exact I| |exact I].
  destruct (e + k + k2 <=? 128 - 24); [|exact I].
  split; [reflexivity|].
  exists (k + k2).
  assert (Hk2 : 0 <= k2) by (unfold k2; lia).
  split; [lia|].
  split; [lia|].
  replace (k + k2 - k) with k2 by lia.
  assert (Hpow : 0 < 2 ^ k2) by (apply Z.pow_pos_nonneg; lia).
  pose proof (Z.mul_div_le N1 (2 ^ k2) Hpow).
  rewrite Hm2. nia.
Qed.

(** Rounding [n / 2^k] to the nearest integer stays at most [V] when
    [n <= V * 2^k]. *)
Lemma shift_round_even_le (n k V : Z) :
  0 < k -> 0 <= n -> n <= V * 2 ^ k -> 0 <= shift_round_even n k <= V.
Proof.
  intros Hk Hn HV.
  unfold shift_round_even.
  assert (Hpow : 0 < 2 ^ k) by (apply Z.pow_pos_nonneg; lia).
  assert (Hh : 0 < 2 ^ (k - 1)) by (apply Z.pow_pos_nonneg; lia).
  pose proof (Z.div_mod n (2 ^ k) ltac:(lia)) as Hdm.
  pose proof (Z.mod_pos_bound n (2 ^ k) Hpow) as Hr.
  assert (Hq0 : 0 <= n / 2 ^ k) by (apply Z.div_pos; lia).
  destruct (Z.ltb_spec (n mod 2 ^ k) (2 ^ (k - 1))); [nia|].
  destruct (Z.ltb_spec (2 ^ (k - 1)) (n mod 2 ^ k)); [nia|].
  destruct (Z.even (n / 2 ^ k)); nia.
Qed.

Lemma binary_round_aux_sign (sx : bool) (mx ex : Z) (lx : location) :
  match binary_round_aux 24 128 sx mx ex lx with
  | S754_finite sg _ _ => sg = sx
  | _ => True
  end.
Proof.
  unfold binary_round_aux.
  destruct (shr_fexp 24 128 mx ex lx) as [mrs1 e1].
  destruct (shr_fexp 24 128 _ e1 loc_Exact) as [mrs2 e2].
  destruct (shr_m mrs2); try exact I.
  now destruct (e2 <=? 128 - 24).
Qed.

Lemma some_eq {A : Type} (a b : A) : Some a = Some b -> a = b.
Proof. congruence. Qed.

Lemma rint_negative (m : positive) (e z : Z) :
  rint (S754_finite true m e) = Some z -> z <= 0.
Proof.
  unfold rint.
  intros Hz; apply some_eq in Hz; subst z.
  destruct (Z.leb_spec 0 e) as [He | He].
  - assert (0 < 2 ^ e) by (apply Z.pow_pos_nonneg; lia). nia.
  - assert (Hpow : 0 < 2 ^ (- e)) by (apply Z.pow_pos_nonneg; lia).
    assert (Hle : Zpos m <= Zpos m * 2 ^ (- e)) by (pose proof (Pos2Z.is_pos m); nia).
    pose proof (shift_round_even_le (Zpos m) (- e) (Zpos m) ltac:(lia) ltac:(lia) Hle).
    lia.
Qed.

(** The product of the float of an integer [v = mv * 2^ev] and of a mask value
    [M * 2^E <= 1], rounded to binary32 and then to an integer, is at most [v]. *)
Lemma product_rint_le (v : Z) (mv M : positive) (ev E z : Z) :
  Zpos mv = v * 2 ^ (- ev) -> -23 <= ev <= 0 -> Zpos mv < 2 ^ 24 ->
  E < 0 -> Zpos M <= 2 ^ (- E) ->
  rint (binary_round_aux 24 128 false (Zpos (mv * M)) (ev + E) loc_Exact) = Some z ->
  z <= v.
Proof.
  intros Hmv Hev Hmv24 HE HM.
  pose proof (binary_round_aux_le (mv * M) (ev + E)) as Hle.
  cbv zeta in Hle.
  set (k := Z.max (fexp 24 128 (Zdigits2 (Zpos (mv * M)) + (ev + E)) - (ev + E)) 0) in *.
  assert (HpE : 0 < 2 ^ (- E)) by (apply Z.pow_pos_nonneg; lia).
  assert (Hd : Zdigits2 (Zpos (mv * M)) <= 24 - E).
  { cbn [Zdigits2]. apply digits2_pos_le; [lia|].
    replace (24 - E) with (24 + - E) by lia.
    rewrite Z.pow_add_r, Pos2Z.inj_mul by lia. nia. }
  assert (Hk : 0 <= k <= - E).
  { unfold k, fexp, emin. lia. }
  assert (HpEk : 0 < 2 ^ (- E - k)) by (apply Z.pow_pos_nonneg; lia).
  assert (Hpk : 0 < 2 ^ k) by (apply Z.pow_pos_nonneg; lia).
  assert (Hsplit : 2 ^ (- E) = 2 ^ (- E - k) * 2 ^ k).
  { rewrite <- Z.pow_add_r by lia. f_equal. lia. }
  specialize (Hle (Zpos mv * 2 ^ (- E - k))).
  assert (HN : Zpos (mv * M) <= Zpos mv * 2 ^ (- E - k) * 2 ^ k).
  { rewrite Pos2Z.inj_mul, <- Z.mul_assoc, <- Hsplit. nia. }
  specialize (Hle HN).
  destruct (binary_round_aux 24 128 false (Zpos (mv * M)) (ev + E) loc_Exact)
    as [sg|sg| |sg m x]; unfold rint; try discriminate.
  - intros Hz; apply some_eq in Hz; subst z.
    assert (0 < 2 ^ (- ev)) by (apply Z.pow_pos_nonneg; lia). nia.
  - destruct Hle as [-> (j & Hj & Hx & Hm)].
    intros Hz; apply some_eq in Hz; subst z.
    assert (Hpev : 0 < 2 ^ (- ev)) by (apply Z.pow_pos_nonneg; lia).
    assert (Hpjk : 0 < 2 ^ (j - k)) by (apply Z.pow_pos_nonneg; lia).
    rewrite Hmv in Hm.
    destruct (Z.leb_spec 0 x) as [Hx0 | Hx0].
    + assert (Hpx : 0 < 2 ^ x) by (apply Z.pow_pos_nonneg; lia).
      assert (Hjk : 2 ^ (j - k) = 2 ^ x * (2 ^ (- ev) * 2 ^ (- E - k))).
      { rewrite <- !Z.pow_add_r by lia. f_equal. lia. }
      rewrite Hjk in Hm.
      assert (Hc : 0 < 2 ^ (- ev) * 2 ^ (- E - k)) by nia.
      apply (Z.mul_le_mono_pos_r _ _ (2 ^ (- ev) * 2 ^ (- E - k)) Hc).
      lia.
    + assert (Hsum : 2 ^ (- ev) * 2 ^ (- E - k) = 2 ^ (- x) * 2 ^ (j - k)).
      { rewrite <- !Z.pow_add_r by lia. f_equal. lia. }
      assert (Hmx : Zpos m <= v * 2 ^ (- x)).
      { apply (Z.mul_le_mono_pos_r _ _ (2 ^ (j - k)) Hpjk).
        rewrite <- Z.mul_assoc, <- Hsum. lia. }
      pose proof (shift_round_even_le (Zpos m) (- x) v ltac:(lia) ltac:(lia) Hmx).
      lia.
Qed.

Lemma uchar_floats_normal : forallb uchar_float_normal (map Z.of_nat (seq 1 255)) = true.
Proof. vm_compute. reflexivity. Qed.

Lemma unit_mask_keeps_all : forallb unit_mask_keeps (map Z.of_nat (seq 0 256)) = true.
Proof. vm_compute. reflexivity. Qed.

Lemma int_to_float_uchar (v : Z) :
  1 <= v <= 255 ->
  exists mv ev, int_to_float v = S754_finite false mv ev /\
                Zpos mv = v * 2 ^ (- ev) /\ -23 <= ev <= 0 /\ Zpos mv < 2 ^ 24.
Proof.
  intros Hv.
  pose proof (forallb_range uchar_float_normal 1 255 uchar_floats_normal v ltac:(lia)) as Htab.
  unfold uchar_float_normal in Htab.
  destruct (int_to_float v) as [sg|sg| |[|] mv ev]; try discriminate.
  exists mv, ev.
  rewrite !andb_true_iff in Htab.
  destruct Htab as [[[H1 H2] H3] H4].
  apply Z.eqb_eq in H1. apply Z.leb_le in H2, H3. apply Z.ltb_lt in H4.
  auto.
Qed.

Lemma vignette_channel_one (v : Z) : 0 <= v <= 255 -> vignette_channel v f_one = v.
Proof.
  intros Hv.
  apply Z.eqb_eq.
  apply (forallb_range unit_mask_keeps 0 256 unit_mask_keeps_all). lia.
Qed.

Lemma saturate_uchar_le (z v : Z) : 0 <= v -> z <= v -> saturate_uchar z <= v.
Proof.
  intros Hv Hz.
  unfold saturate_uchar.
  destruct (Z.leb_spec 0 z), (Z.leb_spec z 255); cbn [andb]; try lia;
    destruct (Z.ltb_spec 0 z); lia.
Qed.

Lemma cvRound_float_le (f : spec_float) (v : Z) :
  0 <= v -> (forall z, rint f = Some z -> z <= v) ->
  saturate_uchar (cvRound_float f) <= v.
Proof.
  intros Hv Hz.
  unfold cvRound_float.
  destruct (rint f) as [z|]; [|exact Hv].
  destruct (in_int z); [|exact Hv].
  apply saturate_uchar_le; auto.
Qed.

Lemma compare_cont_le (p q : positive) :
  PosDef.Pos.compare_cont Eq p q <> Gt -> (p <= q)%positive.
Proof. intros H. exact H. Qed.

(** A binary32 number that compares [<= 1.0f] is [M * 2^E] with [E < 0] and
    [M <= 2^(-E)]. *)
Lemma at_most_one_finite (M : positive) (E : Z) :
  at_most_one (S754_finite false M E) -> E < 0 /\ Zpos M <= 2 ^ (- E).
Proof.
  intros [Hvalid Hle].
  unfold valid_binary, SpecFloat.bounded, canonical_mantissa, fexp, emin in Hvalid.
  apply andb_true_iff in Hvalid as [Hcanon _].
  apply Z.eqb_eq in Hcanon.
  unfold fleb, SFleb, SFcompare, f_one in Hle.
  change (int_to_float 1) with (S754_finite false 8388608 (-23)) in Hle.
  cbv beta iota in Hle.
  assert (HM24 : Zpos M < 2 ^ 24).
  { rewrite digits2_pos_size in Hcanon.
    pose proof (Pos.size_gt M) as Hgt.
    apply Pos2Z.pos_lt_pos in Hgt.
    rewrite Pos2Z.inj_pow in Hgt.
    assert (2 ^ Zpos (Pos.size M) <= 2 ^ 24) by (apply Z.pow_le_mono_r; lia).
    lia. }
  destruct (Z.compare_spec E (-23)) as [HE | HE | HE]; try discriminate.
  - subst E. split; [lia|].
    change (2 ^ (- -23)) with 8388608.
    apply Pos2Z.pos_le_pos, compare_cont_le.
    intros Hc. rewrite Hc in Hle. discriminate Hle.
  - split; [lia|].
    assert (2 ^ 24 <= 2 ^ (- E)) by (apply Z.pow_le_mono_r; lia).
    lia.
Qed.

Lemma vignette_channel_le (v : Z) (m : spec_float) :
  0 <= v <= 255 -> at_most_one m -> vignette_channel v m <= v.
Proof.
  intros Hv Hm.
  unfold vignette_channel.
  apply cvRound_float_le; [lia|].
  destruct (Z.eq_dec v 0) as [-> | Hv0].
  - change (int_to_float 0) with (S754_zero false).
    destruct m as [sg|sg| |sg M E]; cbn; intros z; try discriminate;
      intros Hz; apply some_eq in Hz; lia.
  - destruct (int_to_float_uchar v ltac:(lia)) as (mv & ev & -> & Hmv & Hev & Hmv24).
    destruct m as [sg|sg| |sg M E]; unfold fmul; cbn [SFmul xorb].
    + intros z Hz; apply some_eq in Hz; lia.
    + discriminate.
    + discriminate.
    + destruct sg.
      * pose proof (binary_round_aux_sign true (Zpos (mv * M)) (ev + E) loc_Exact) as Hsg.
        destruct (binary_round_aux 24 128 true (Zpos (mv * M)) (ev + E) loc_Exact)
          as [sg|sg| |sg m' x]; try discriminate.
        -- intros z Hz; apply some_eq in Hz; lia.
        -- subst sg. intros z Hz. apply rint_negative in Hz. lia.
      * destruct (at_most_one_finite M E Hm) as [HE HM].
        intros z. apply product_rint_le; assumption.
Qed.

(** ** The vignette *)

Lemma at_vignette (src : Mat (Vec3 Z)) (mask : Mat (Vec3 spec_float)) (r c : nat) :
  at_ (vignette src mask) r c =
  match at_ src r c, at_ mask r c with
  | Some p, Some mk => Some (vec3_zip vignette_channel p mk)
  | _, _ => None
  end.
Proof.
  unfold vignette, convertTo_8U, multiply, convertTo_32F.
  rewrite at_map, at_zip_with, at_map.
  destruct (at_ src r c) as [p|]; [|reflexivity].
  destruct (at_ mask r c) as [mk|]; reflexivity.
Qed.

Lemma darkened_channel (v : Z) (m : spec_float) :
  is_uchar v -> darkened v m (vignette_channel v m).
Proof.
  intros Hv. split.
  - apply vignette_channel_le, Hv.
  - intros ->. apply vignette_channel_one, Hv.
Qed.

(** C6: for every 8-bit image and every mask, wherever both have a pixel the
    output of the vignette has one too, and in each channel the output value is
    at most the input value when the mask value is at most 1.0 and equal to
    it when the mask value is 1.0. *)
Theorem vignette_never_brightens (src : Mat (Vec3 Z)) (mask : Mat (Vec3 spec_float))
  (r c : nat) (p : Vec3 Z) (mk : Vec3 spec_float) :
  uchar_pixel p ->
  at_ src r c = Some p ->
  at_ mask r c = Some mk ->
  exists q : Vec3 Z,
    at_ (vignette src mask) r c = Some q /\
    darkened (ch0 p) (ch0 mk) (ch0 q) /\
    darkened (ch1 p) (ch1 mk) (ch1 q) /\
    darkened (ch2 p) (ch2 mk) (ch2 q).
Proof.
  intros (H0 & H1 & H2) Hp Hmk.
  exists (vec3_zip vignette_channel p mk).
  rewrite at_vignette, Hp, Hmk.
  split; [reflexivity|].
  cbn [vec3_zip ch0 ch1 ch2].
  repeat split; apply darkened_channel; assumption.
Qed.

Lemma at_Forall {A : Type} (P : A -> Prop) (m : Mat A) (r c : nat) (x : A) :
  Forall (Forall P) m -> at_ m r c = Some x -> P x.
Proof.
  unfold at_. intros Hall Hat.
  destruct (nth_error m r) as [row|] eqn:Hrow; [|discriminate].
  apply nth_error_In in Hrow, Hat.
  rewrite Forall_forall in Hall.
  specialize (Hall row Hrow).
  rewrite Forall_forall in Hall.
  auto.
Qed.

Lemma at_most_one_half : at_most_one f_half.
Proof. split; reflexivity. Qed.

Lemma at_most_one_one : at_most_one f_one.
Proof. split; reflexivity. Qed.

(** Under the two contracts the mask of the halo callback is at most 1.0
    everywhere. *)
Lemma halo_mask_at_most_one (image : Mat (Vec3 Z)) (r : Z) :
  circle_contract -> blur_contract -> mask_at_most_one (halo_mask image r).
Proof.
  intros Hcircle Hblur.
  unfold halo_mask.
  apply Hblur, Hcircle.
  - unfold Mat_fill.
    apply Forall_forall; intros row Hrow.
    apply repeat_spec in Hrow; subst row.
    apply Forall_forall; intros px Hpx.
    apply repeat_spec in Hpx; subst px.
    repeat split; apply at_most_one_half.
  - repeat split; apply at_most_one_one.
Qed.

(** Hence no pixel the halo callback displays is brighter, in any channel,
    than the pixel of [result] it comes from. *)
Lemma halo_display_no_brighter (st : state) (r c : nat) (p q : Vec3 Z) :
  circle_contract -> blur_contract ->
  uchar_image (result (trackbar_halo st)) ->
  at_ (result (trackbar_halo st)) r c = Some p ->
  at_ (display (trackbar_halo st)) r c = Some q ->
  ch0 q <= ch0 p /\ ch1 q <= ch1 p /\ ch2 q <= ch2 p.
Proof.
  intros Hcircle Hblur Himage Hp Hq.
  pose proof (at_Forall _ _ _ _ _ Himage Hp) as (H0 & H1 & H2).
  pose proof (halo_mask_at_most_one (img st) (radius (trackbar_halo st)) Hcircle Hblur) as Hmask.
  change (display (trackbar_halo st))
    with (vignette (result (trackbar_halo st)) (halo_mask (img st) (radius (trackbar_halo st)))) in Hq.
  rewrite at_vignette, Hp in Hq.
  destruct (at_ (halo_mask (img st) (radius (trackbar_halo st))) r c) as [mk|] eqn:Hmk;
    [|discriminate].
  apply some_eq in Hq; subst q.
  pose proof (at_Forall _ _ _ _ _ Hmask Hmk) as (M0 & M1 & M2).
  cbn [vec3_zip ch0 ch1 ch2].
  repeat split; apply vignette_channel_le; assumption.
Qed.

(** ** What reaches the output file *)

Lemma run_app (moves1 moves2 : list slider_move) (st : state) :
  run (moves1 ++ moves2) st = run moves2 (run moves1 st).
Proof. unfold run. apply fold_left_app. Qed.

(** X1: [main] writes a file only when an image was decoded, the key read is
    [s] and [cv::imwrite] succeeds; the image written is then [display] as the
    slider moves left it, and the exit code is 0. *)
Theorem output_only_on_save (cl : cmdline) (moves : list slider_move) (keys : list Z)
  (o : outcome) (m : Mat (Vec3 Z)) :
  main cl moves keys = Some o ->
  output_jpg o = Some m ->
  exists decoded key rest,
    cl = Picture decoded /\ empty decoded = false /\ keys = key :: rest /\
    to_uchar key = 115 /\
    m = display (run moves (initial decoded)) /\
    cv_imwrite m = Written /\ exit_code o = 0.
Proof.
  unfold main.
  destruct cl as [| |decoded]; try (intros [= <-]; discriminate).
  destruct (empty decoded) eqn:Hdec; [intros [= <-]; discriminate|].
  destruct keys as [|key rest]; [discriminate|].
  intros Ho Hm. apply some_eq in Ho. subst o.
  unfold key_gate in Hm |- *.
  destruct (Z.eqb_spec (to_uchar key) 113); [discriminate|].
  destruct (Z.eqb_spec (to_uchar key) 115) as [Hs|]; [|discriminate].
  destruct (cv_imwrite (display (run moves (initial decoded)))) eqn:Hw; try discriminate.
  cbn [output_jpg] in Hm. apply some_eq in Hm. subst m.
  exists decoded, key, rest. auto 10.
Qed.

(** X2: the colour callback does not touch [display], so colour-slider moves
    made after the last halo-slider move change nothing of how [main] ends:
    the file saved shows the colour curve of the last halo callback. *)
Theorem trailing_color_moves_not_saved (cl : cmdline) (decoded : Mat (Vec3 Z))
  (moves : list slider_move) (ps : list Z) (keys : list Z) :
  display (run (moves ++ map move_s ps) (initial decoded)) = display (run moves (initial decoded)) /\
  main cl (moves ++ map move_s ps) keys = main cl moves keys.
Proof.
  assert (Hd : forall st, display (run (moves ++ map move_s ps) st) = display (run moves st)).
  { intros st. rewrite run_app. apply display_run_s. }
  split; [apply Hd|].
  unfold main.
  destruct cl as [| |picture]; try reflexivity.
  destruct (empty picture); [reflexivity|].
  destruct keys as [|key rest]; [reflexivity|].
  unfold key_gate. now rewrite Hd.
Qed.

(** X15: the exit code is 0 or 1, and it is 0 only if a non-empty image was
    decoded, a key was read and, when that key is [s], [cv::imwrite] did not
    throw; so it is 1 whenever no image was decoded, and whenever [s] is
    pressed and [cv::imwrite] throws. *)
Theorem exit_code_zero_needs_clean_run (cl : cmdline) (moves : list slider_move)
  (keys : list Z) (o : outcome) :
  main cl moves keys = Some o ->
  (exit_code o = 0 \/ exit_code o = 1) /\
  (exit_code o = 0 ->
   exists decoded key rest,
     cl = Picture decoded /\ empty decoded = false /\ keys = key :: rest /\
     (to_uchar key = 115 -> cv_imwrite (display (run moves (initial decoded))) <> Raised)).
Proof.
  unfold main.
  destruct cl as [| |decoded].
  - intros Ho; apply some_eq in Ho; subst o. cbn [exit_code].
    split; [now right|discriminate].
  - intros Ho; apply some_eq in Ho; subst o. cbn [exit_code].
    split; [now right|discriminate].
  - destruct (empty decoded) eqn:Hdec.
    + intros Ho; apply some_eq in Ho; subst o. cbn [exit_code].
      split; [now right|discriminate].
    + destruct keys as [|key rest]; [discriminate|].
      intros Ho; apply some_eq in Ho; subst o.
      unfold key_gate.
      destruct (Z.eqb_spec (to_uchar key) 113) as [Hq|Hq].
      { cbn [exit_code]. split; [now left|].
        intros _. exists decoded, key, rest.
        repeat (split; [reflexivity || exact Hdec|]).
        intros Hs. lia. }
      destruct (Z.eqb_spec (to_uchar key) 115) as [Hs|Hs].
      * destruct (cv_imwrite (display (run moves (initial decoded)))) eqn:Hw; cbn [exit_code].
        -- split; [now left|]. intros _. exists decoded, key, rest.
           repeat (split; [reflexivity || exact Hdec|]).
           rewrite Hw. discriminate.
        -- split; [now left|]. intros _. exists decoded, key, rest.
           repeat (split; [reflexivity || exact Hdec|]).
           rewrite Hw. discriminate.
        -- split; [now right|discriminate].
      * cbn [exit_code]. split; [now left|].
        intros _. exists decoded, key, rest.
        repeat (split; [reflexivity || exact Hdec|]).
        intros Hs'. contradiction.
Qed.

(** X16: the key is narrowed to [uchar] before it is compared, so two key
    codes that differ by a multiple of 256 end [main] the same way. *)
Theorem key_codes_compared_modulo_256 (cl : cmdline) (moves : list slider_move)
  (key n : Z) (rest rest' : list Z) :
  main cl moves (key + 256 * n :: rest) = main cl moves (key :: rest').
Proof.
  unfold main.
  destruct cl as [| |decoded]; try reflexivity.
  destruct (empty decoded); [reflexivity|].
  unfold key_gate, to_uchar.
  rewrite (Z.mul_comm 256 n), Z.mod_add by lia.
  reflexivity.
Qed.

(** ** The slider handlers *)

(** X3: of two moves of the same slider in a row only the second counts: the
    colour callback starts again from [img], and the toolkit stores the
    slider position in [radius] before it calls the halo callback.  A slider
    move is thus idempotent on the whole state. *)
Theorem last_move_of_a_slider_counts (p p' : Z) (st : state) :
  on_move (move_s p) (on_move (move_s p') st) = on_move (move_s p) st /\
  on_move (move_radius p) (on_move (move_radius p') st) = on_move (move_radius p) st.
Proof.
  split; cbn [on_move].
  - reflexivity.
  - unfold trackbar_halo, set_radius; cbn [img result display s radius].
    destruct (empty (result st)) eqn:Hres.
    + now destruct (empty (img st)).
    + now rewrite Hres.
Qed.

(** X4: every position of the [s] slider up to 8 gives the state position 8
    gives. *)
Theorem low_s_positions_act_as_8 (pos : Z) (st : state) :
  pos <= 8 -> on_move (move_s pos) st = on_move (move_s 8) st.
Proof.
  intros Hpos.
  cbn [on_move]. unfold trackbar_color, set_s; cbn [img result display s radius].
  now replace (Z.max pos 8) with (Z.max 8 8) by lia.
Qed.

Lemma result_run_radius (qs : list Z) (st : state) :
  empty (result st) = false -> result (run (map move_radius qs) st) = result st.
Proof.
  revert st; induction qs as [|q qs IH]; intros st Hres; [reflexivity|].
  simpl map. rewrite run_cons.
  assert (Hstep : result (on_move (move_radius q) st) = result st).
  { cbn [on_move]. unfold trackbar_halo. cbn [result set_radius]. now rewrite Hres. }
  rewrite IH; rewrite Hstep; [reflexivity|exact Hres].
Qed.

(** X17: the filters do not pile up in [result]: after any moves that end
    with a colour move to [p] and then halo moves, [result] is the decoded
    image with the curve of [p] applied once; with halo moves only it is the
    decoded image. *)
Theorem result_is_last_color_remap (decoded : Mat (Vec3 Z)) (moves : list slider_move)
  (p q : Z) (qs : list Z) :
  empty decoded = false ->
  result (run (moves ++ move_s p :: map move_radius qs) (initial decoded))
    = channel_remap decoded (build_lut (Z.max p 8)) /\
  result (run (map move_radius (q :: qs)) (initial decoded)) = decoded.
Proof.
  intros Hdec. split.
  - rewrite run_app, run_cons.
    set (before := run moves (initial decoded)).
    assert (Himg : img before = decoded) by apply img_run.
    assert (Hres : result (on_move (move_s p) before)
                   = channel_remap decoded (build_lut (Z.max p 8))).
    { cbn [on_move]. rewrite result_trackbar_color. unfold color_lut.
      cbn [set_s img s]. now rewrite Himg. }
    rewrite result_run_radius; [exact Hres|].
    cbn [on_move]. rewrite empty_result_trackbar_color. cbn [set_s img].
    now rewrite Himg.
  - simpl map. rewrite run_cons.
    assert (Hres : result (on_move (move_radius q) (initial decoded)) = decoded) by reflexivity.
    rewrite result_run_radius; [exact Hres|].
    now rewrite Hres.
Qed.

(** ** Invariants of the three buffers *)

Lemma saturate_uchar_range (v : Z) : is_uchar (saturate_uchar v).
Proof.
  unfold is_uchar, saturate_uchar.
  destruct (Z.leb_spec 0 v), (Z.leb_spec v 255); cbn [andb]; try lia;
    destruct (Z.ltb_spec 0 v); lia.
Qed.

Lemma uchar_image_convertTo_8U (m : Mat (Vec3 spec_float)) : uchar_image (convertTo_8U m).
Proof.
  unfold uchar_image, convertTo_8U.
  apply Forall_map, Forall_forall; intros row _.
  apply Forall_map, Forall_forall; intros px _.
  split; [|split]; apply saturate_uchar_range.
Qed.

Lemma Forall_nth {A : Type} (P : A -> Prop) (l : list A) (d : A) (n : nat) :
  Forall P l -> P d -> P (nth n l d).
Proof.
  intros Hl Hd.
  destruct (Nat.lt_ge_cases n (length l)) as [Hlt | Hge].
  - rewrite Forall_forall in Hl. apply Hl, nth_In, Hlt.
  - now rewrite nth_overflow.
Qed.

Lemma uchar_image_channel_remap (source : Mat (Vec3 Z)) (lut : list Z) :
  uchar_image source -> Forall is_uchar lut -> uchar_image (channel_remap source lut).
Proof.
  intros Hsrc Hlut.
  rewrite channel_remap_map.
  unfold uchar_image in *.
  apply Forall_map.
  eapply Forall_impl; [|exact Hsrc].
  intros row Hrow.
  apply Forall_map.
  eapply Forall_impl; [|exact Hrow].
  intros p (H0 & H1 & _).
  split; [exact H0|].
  split; [exact H1|].
  cbn [remap_pixel ch2].
  apply (Forall_nth is_uchar); [exact Hlut|].
  unfold is_uchar; lia.
Qed.

Lemma build_lut_is_uchar (sv : Z) : Forall is_uchar (build_lut sv).
Proof.
  unfold build_lut.
  apply Forall_map, Forall_forall; intros k _.
  unfold is_uchar, to_uchar.
  pose proof (Z.mod_pos_bound (cvRound (curve_value sv (Z.of_nat k))) 256). lia.
Qed.

Lemma buffers_8bit_on_move (e : slider_move) (st : state) :
  buffers_8bit st -> buffers_8bit (on_move e st).
Proof.
  intros (Himg & Hres & Hdisp).
  destruct e as [pos | pos]; cbn [on_move].
  - repeat split; cbn [trackbar_color set_s img result display]; try assumption.
    apply uchar_image_channel_remap; [assumption|apply build_lut_is_uchar].
  - unfold trackbar_halo, set_radius; cbn [img result display s radius].
    repeat split; try assumption.
    + now destruct (empty (result st)).
    + apply uchar_image_convertTo_8U.
Qed.

(** X5: from a decoded 8-bit image on, whatever the sliders do (any [s], any
    mask the toolkit returns), every channel of [img], [result] and [display]
    stays within 0..255: the table entries are [uchar]s and the halo callback
    saturates. *)
Theorem buffers_stay_8bit (decoded : Mat (Vec3 Z)) (moves : list slider_move) :
  uchar_image decoded ->
  buffers_8bit (run moves (initial decoded)).
Proof.
  intros Hdec.
  assert (Hinit : buffers_8bit (initial decoded))
    by (repeat split; [exact Hdec|constructor|constructor]).
  revert Hinit. generalize (initial decoded) as st.
  induction moves as [|e moves IH]; intros st Hst; [exact Hst|].
  rewrite run_cons. apply IH, buffers_8bit_on_move, Hst.
Qed.

(** ** Sizes *)

Lemma shape_map {A B : Type} (f : A -> B) (m : Mat A) : shape (map (map f) m) = shape m.
Proof.
  unfold shape. rewrite map_map.
  apply map_ext; intros row. apply length_map.
Qed.

Lemma length_zip_with {A B C : Type} (f : A -> B -> C) (l1 : list A) (l2 : list B) :
  length l1 = length l2 -> length (zip_with f l1 l2) = length l1.
Proof.
  revert l2; induction l1 as [|a l1 IH]; intros [|b l2] Hlen; simpl in *; try congruence.
  f_equal. apply IH. congruence.
Qed.

Lemma shape_zip_with {A B C : Type} (f : A -> B -> C) (a : Mat A) (b : Mat B) :
  shape a = shape b -> shape (zip_with (zip_with f) a b) = shape a.
Proof.
  unfold shape.
  revert b; induction a as [|ra a IH]; intros [|rb b] Hs; simpl in *; try congruence.
  injection Hs as Hr Hs.
  f_equal; [apply length_zip_with, Hr|apply IH, Hs].
Qed.

Lemma shape_Mat_fill {A B : Type} (m : Mat A) (v : B) :
  rectangular m -> shape (Mat_fill (rows m) (cols m) v) = shape m.
Proof.
  unfold rectangular, shape, Mat_fill, rows, cols.
  rewrite !Nat2Z.id.
  generalize (length (hd [] m)) as k.
  intros k Hrect.
  induction Hrect as [|row m' Hrow _ IH]; [reflexivity|].
  simpl. rewrite repeat_length, Hrow. f_equal. exact IH.
Qed.

Lemma empty_shape {A B : Type} (a : Mat A) (b : Mat B) :
  shape a = shape b -> empty a = empty b.
Proof.
  unfold shape, empty, rows, cols.
  intros Hs.
  assert (Hlen : length a = length b)
    by (rewrite <- (length_map (@length A) a), Hs; apply length_map).
  rewrite Hlen.
  destruct a as [|ra a], b as [|rb b]; try discriminate; [reflexivity|].
  simpl in Hs. injection Hs as Hr _.
  simpl hd. now rewrite Hr.
Qed.

Lemma shape_vignette (src : Mat (Vec3 Z)) (mask : Mat (Vec3 spec_float)) :
  shape mask = shape src -> shape (vignette src mask) = shape src.
Proof.
  intros Hs.
  unfold vignette, convertTo_8U, multiply, convertTo_32F.
  rewrite shape_map, shape_zip_with; rewrite shape_map; [reflexivity|now symmetry].
Qed.

Lemma shape_halo_mask (image : Mat (Vec3 Z)) (r : Z) :
  rectangular image -> circle_keeps_shape -> blur_keeps_shape ->
  shape (halo_mask image r) = shape image.
Proof.
  intros Hrect Hc Hb.
  unfold halo_mask.
  now rewrite Hb, Hc, shape_Mat_fill.
Qed.

Lemma result_sized_on_move (e : slider_move) (st : state) :
  result_sized st -> result_sized (on_move e st).
Proof.
  intros Hres.
  destruct e as [pos | pos]; cbn [on_move]; right.
  - cbn [trackbar_color set_s img result].
    rewrite channel_remap_map. apply shape_map.
  - unfold trackbar_halo, set_radius; cbn [img result display s radius].
    destruct (empty (result st)) eqn:He; [reflexivity|].
    destruct Hres as [Hnil | Hs]; [|exact Hs].
    rewrite Hnil in He. discriminate.
Qed.

Lemma result_sized_run (moves : list slider_move) (st : state) :
  result_sized st -> result_sized (run moves st).
Proof.
  revert st; induction moves as [|e moves IH]; intros st Hst; [exact Hst|].
  rewrite run_cons. apply IH, result_sized_on_move, Hst.
Qed.

Lemma halo_sizes (st : state) :
  rectangular (img st) -> circle_keeps_shape -> blur_keeps_shape ->
  result_sized st ->
  shape (result (trackbar_halo st)) = shape (img st) /\
  shape (display (trackbar_halo st)) = shape (img st).
Proof.
  intros Hrect Hc Hb Hres.
  unfold trackbar_halo; cbn [img result display s radius].
  assert (Hbase : shape (if empty (result st) then img st else result st) = shape (img st)).
  { destruct (empty (result st)) eqn:He; [reflexivity|].
    destruct Hres as [Hnil | Hs]; [|exact Hs].
    rewrite Hnil in He. discriminate. }
  split; [exact Hbase|].
  rewrite shape_vignette; [exact Hbase|].
  now rewrite shape_halo_mask, Hbase.
Qed.

(** X6: with a toolkit whose [cv::circle] and [cv::blur] keep the size of
    their argument, [display] after a halo-slider move has the size of the
    decoded image, row by row, whatever came before; in particular it is not
    empty when the image is not, so a save then has an image to write. *)
Theorem display_has_image_size (decoded : Mat (Vec3 Z)) (moves : list slider_move) (pos : Z) :
  rectangular decoded -> circle_keeps_shape -> blur_keeps_shape ->
  let st := run (moves ++ [move_radius pos]) (initial decoded) in
  shape (display st) = shape decoded /\
  shape (result st) = shape decoded /\
  empty (display st) = empty decoded.
Proof.
  intros Hrect Hc Hb st.
  unfold st. rewrite run_app.
  change (run [move_radius pos] ?x) with (trackbar_halo (set_radius pos x)).
  set (before := run moves (initial decoded)).
  assert (Himg : img before = decoded) by (unfold before; now rewrite img_run).
  assert (Hres : result_sized (set_radius pos before)).
  { assert (H0 : result_sized before) by (apply result_sized_run; now left).
    exact H0. }
  destruct (halo_sizes (set_radius pos before)) as [Hr Hd]; try assumption.
  { cbn [set_radius img]. now rewrite Himg. }
  cbn [set_radius img] in Hr, Hd. rewrite Himg in Hr, Hd.
  repeat split; try assumption.
  apply empty_shape, Hd.
Qed.

(** ** Rounding of an exact product, at any precision *)

Section RoundBetween.

Variables prec emax : Z.
Hypothesis prec_pos : 0 < prec.

Lemma digits2_pos_gt (p : positive) (n : Z) :
  2 ^ n <= Zpos p -> n < Zpos (digits2_pos p).
Proof.
  intros Hp.
  rewrite digits2_pos_size.
  pose proof (Pos.size_gt p) as Hgt.
  apply Pos2Z.pos_lt_pos in Hgt.
  rewrite Pos2Z.inj_pow in Hgt.
  destruct (Z.lt_ge_cases n (Zpos (Pos.size p))) as [Hlt | Hge]; [exact Hlt|exfalso].
  assert (2 ^ Zpos (Pos.size p) <= 2 ^ n) by (apply Z.pow_le_mono_r; lia).
  lia.
Qed.

Lemma Zdigits2_le (n d : Z) : 0 <= d -> 0 <= n < 2 ^ d -> Zdigits2 n <= d.
Proof.
  intros Hd [Hn0 Hn].
  destruct n as [|p|p]; cbn [Zdigits2]; [lia| |lia].
  now apply digits2_pos_le.
Qed.

(** The rounding of [N * 2^e] lies between two values [L] and [U] of the grid
    of step [2^(e+k)], [k] being the first shift, when the exact value does;
    the second shift is by at most one bit. *)
Lemma round_between (sx : bool) (N : positive) (e L U : Z) :
  let k := Z.max (fexp prec emax (Zdigits2 (Zpos N) + e) - e) 0 in
  1 <= L -> (2 | L) ->
  L * 2 ^ k <= Zpos N <= U * 2 ^ k ->
  e + k + 1 <= emax - prec ->
  exists m j,
    binary_round_aux prec emax sx (Zpos N) e loc_Exact = S754_finite sx m (e + j) /\
    k <= j <= k + 1 /\ L <= Zpos m * 2 ^ (j - k) <= U.
Proof.
  intros k HL [c Hc] [HLN HNU] Hover.
  assert (Hk0 : 0 <= k) by (unfold k; lia).
  assert (Hpk : 0 < 2 ^ k) by (apply Z.pow_pos_nonneg; lia).
  unfold binary_round_aux, shr_fexp.
  cbn [shr_record_of_loc].
  destruct (shr_exact (Zpos N) e (fexp prec emax (Zdigits2 (Zpos N) + e) - e) ltac:(lia))
    as (mrs1 & Heq1 & Hm1 & Hex1).
  fold k in Heq1, Hm1, Hex1.
  rewrite Heq1.
  pose proof (round_shifted_le (Zpos N) U k mrs1 ltac:(lia) Hk0 HNU Hm1 Hex1) as [_ HN1U].
  pose proof (round_nearest_even_bounds (shr_m mrs1) (loc_of_shr_record mrs1)) as [HqN1 HN1q].
  assert (Hq : L <= Zpos N / 2 ^ k) by (apply Z.div_le_lower_bound; lia).
  set (d := Zdigits2 (Zpos N)) in *.
  assert (Hd : Zpos N < 2 ^ d).
  { unfold d; cbn [Zdigits2]. rewrite digits2_pos_size.
    pose proof (Pos.size_gt N) as Hgt.
    apply Pos2Z.pos_lt_pos in Hgt. now rewrite Pos2Z.inj_pow in Hgt. }
  assert (Hkd : k < d).
  { destruct (Z.lt_ge_cases k d) as [Hlt | Hge]; [exact Hlt|exfalso].
    assert (2 ^ d <= 2 ^ k) by (apply Z.pow_le_mono_r; lia).
    nia. }
  assert (Hqd : Zpos N / 2 ^ k < 2 ^ (d - k)).
  { apply Z.div_lt_upper_bound; [lia|].
    rewrite <- Z.pow_add_r by lia.
    now replace (k + (d - k)) with d by lia. }
  set (N1 := round_nearest_even (shr_m mrs1) (loc_of_shr_record mrs1)) in *.
  rewrite Hm1 in HqN1, HN1q.
  assert (HN1d : Zdigits2 N1 <= d - k + 1).
  { apply Zdigits2_le; [lia|].
    split; [lia|].
    rewrite Z.pow_add_r, Z.pow_1_r by lia.
    assert (0 < 2 ^ (d - k)) by (apply Z.pow_pos_nonneg; lia).
    lia. }
  destruct (shr_exact N1 (e + k) (fexp prec emax (Zdigits2 N1 + (e + k)) - (e + k)) ltac:(lia))
    as (mrs2 & Heq2 & Hm2 & _).
  set (k2 := Z.max (fexp prec emax (Zdigits2 N1 + (e + k)) - (e + k)) 0) in *.
  rewrite Heq2.
  assert (Hk2 : 0 <= k2 <= 1).
  { unfold k2, k, fexp, emin in *. lia. }
  assert (Hm2' : L <= shr_m mrs2 * 2 ^ k2 <= U).
  { rewrite Hm2.
    destruct (Z.eq_dec k2 0) as [-> | Hk21].
    - rewrite Z.pow_0_r, Z.div_1_r. lia.
    - replace k2 with 1 by lia.
      rewrite Z.pow_1_r.
      pose proof (Z.div_mod N1 2 ltac:(lia)).
      pose proof (Z.mod_pos_bound N1 2 ltac:(lia)).
      lia. }
  assert (Hp2 : 0 < 2 ^ k2) by (apply Z.pow_pos_nonneg; lia).
  destruct (shr_m mrs2) as [|m|m] eqn:Hm; [lia| |lia].
  destruct (Z.leb_spec (e + k + k2) (emax - prec)) as [_ | Hbad]; [|lia].
  exists m, (k + k2).
  rewrite Z.add_assoc.
  split; [reflexivity|].
  split; [lia|].
  now replace (k + k2 - k) with k2 by lia.
Qed.

End RoundBetween.

(** ** The vignette darkens by at most a half *)

Lemma shift_round_even_ge_half (v n k : Z) :
  0 <= v -> 1 <= k -> v * 2 ^ (k - 1) <= n ->
  half_even v <= shift_round_even n k.
Proof.
  intros Hv Hk Hn.
  unfold half_even, shift_round_even.
  change (2 ^ (1 - 1)) with 1. change (2 ^ 1) with 2.
  assert (Hh : 0 < 2 ^ (k - 1)) by (apply Z.pow_pos_nonneg; lia).
  assert (Hpk : 2 ^ k = 2 * 2 ^ (k - 1)).
  { rewrite <- Z.pow_succ_r by lia. f_equal. lia. }
  pose proof (Z.div_mod v 2 ltac:(lia)) as Hv2.
  pose proof (Z.mod_pos_bound v 2 ltac:(lia)) as Hb.
  pose proof (Z.div_mod n (2 ^ k) ltac:(lia)) as Hdm.
  pose proof (Z.mod_pos_bound n (2 ^ k) ltac:(lia)) as Hr.
  set (i := v / 2) in *. set (b := v mod 2) in *.
  set (q := n / 2 ^ k) in *. set (r := n mod 2 ^ k) in *.
  set (h := 2 ^ (k - 1)) in *.
  rewrite Hpk in Hdm, Hr.
  assert (Hqi : i <= q) by nia.
  destruct (Z.ltb_spec b 1) as [Hb0 | Hb1].
  - destruct (Z.ltb_spec r h); [lia|].
    destruct (Z.ltb_spec h r); [lia|].
    destruct (Z.even q); lia.
  - assert (Hb' : b = 1) by lia.
    destruct (Z.ltb_spec 1 b); [lia|].
    destruct (Z.eq_dec q i) as [Hqe | Hqne].
    + assert (Hrh : h <= r) by nia.
      destruct (Z.ltb_spec r h); [lia|].
      rewrite Hqe.
      destruct (Z.ltb_spec h r); [destruct (Z.even i); lia|lia].
    + assert (i + 1 <= q) by lia.
      destruct (Z.ltb_spec r h); [destruct (Z.even i); lia|].
      destruct (Z.ltb_spec h r); [destruct (Z.even i); lia|].
      destruct (Z.even i), (Z.even q); lia.
Qed.

Lemma uchar_floats_tight : forallb uchar_float_tight (map Z.of_nat (seq 1 255)) = true.
Proof. vm_compute. reflexivity. Qed.

Lemma half_mask_halves_all : forallb half_mask_halves (map Z.of_nat (seq 0 256)) = true.
Proof. vm_compute. reflexivity. Qed.

Lemma int_to_float_tight (v : Z) :
  1 <= v <= 255 ->
  exists mv ev, int_to_float v = S754_finite false mv ev /\
                Zpos mv = v * 2 ^ (- ev) /\ -23 <= ev <= -16 /\
                2 ^ 23 <= Zpos mv < 2 ^ 24.
Proof.
  intros Hv.
  pose proof (forallb_range uchar_float_tight 1 255 uchar_floats_tight v ltac:(lia)) as Htab.
  unfold uchar_float_tight in Htab.
  destruct (int_to_float v) as [sg|sg| |[|] mv ev]; try discriminate.
  exists mv, ev.
  rewrite !andb_true_iff in Htab.
  destruct Htab as [[[[H1 H2] H3] H4] H5].
  apply Z.eqb_eq in H1. apply Z.leb_le in H2, H3, H4. apply Z.ltb_lt in H5.
  auto.
Qed.

Lemma compare_cont_ge (p q : positive) :
  PosDef.Pos.compare_cont Eq p q <> Gt -> (p <= q)%positive.
Proof. intros H. exact H. Qed.

(** A binary32 number between 0.5 and 1.0 is [M * 2^E], positive, with
    [E] one of -24, -23 and [2^23 <= M <= 2^(-E)]. *)
Lemma half_to_one_finite (m : spec_float) :
  half_to_one m ->
  exists M E, m = S754_finite false M E /\ -24 <= E < 0 /\
              2 ^ 23 <= Zpos M <= 2 ^ (- E).
Proof.
  intros [[Hvalid Hge] Hle].
  destruct m as [sg|sg| |sg M E]; try discriminate Hge.
  - destruct sg; [discriminate Hge|]. destruct Hle as [_ Hle]. discriminate Hle.
  - destruct sg; [discriminate Hge|].
    destruct (at_most_one_finite M E Hle) as [HE HM].
    exists M, E. split; [reflexivity|].
    unfold fleb, SFleb, SFcompare, f_half in Hge.
    change (binary_normalize 24 128 1 (-1) false) with (S754_finite false 8388608 (-24)) in Hge.
    cbv beta iota in Hge.
    unfold valid_binary, SpecFloat.bounded, canonical_mantissa, fexp, emin in Hvalid.
    apply andb_true_iff in Hvalid as [Hcanon _].
    apply Z.eqb_eq in Hcanon.
    destruct (Z.compare_spec (-24) E) as [HE' | HE' | HE']; try discriminate.
    + subst E. split; [lia|]. split; [|exact HM].
      change (2 ^ 23) with (Zpos 8388608).
      apply Pos2Z.pos_le_pos, compare_cont_ge.
      intros Hc. rewrite Hc in Hge. discriminate Hge.
    + split; [lia|]. split; [|exact HM].
      assert (Hd : 23 < Zpos (digits2_pos M)) by lia.
      destruct (Z.lt_ge_cases (Zpos M) (2 ^ 23)) as [Hlt | Hge']; [|exact Hge'].
      pose proof (digits2_pos_le M 23 ltac:(lia) Hlt). lia.
Qed.

Lemma in_int_uchar (z : Z) : 0 <= z <= 255 -> in_int z = true.
Proof.
  intros Hz. unfold in_int, INT_MIN, INT_MAX.
  apply andb_true_iff; split; apply Z.leb_le; lia.
Qed.

Lemma saturate_uchar_id (z : Z) : 0 <= z <= 255 -> saturate_uchar z = z.
Proof.
  intros Hz. unfold saturate_uchar.
  destruct (Z.leb_spec 0 z), (Z.leb_spec z 255); cbn [andb]; lia.
Qed.

(** Under a mask value between 0.5 and 1.0 a channel ends between its half
    and itself. *)
Lemma vignette_channel_between (v : Z) (m : spec_float) :
  0 <= v <= 255 -> half_to_one m ->
  half_even v <= vignette_channel v m <= v.
Proof.
  intros Hv Hm.
  split; [|apply vignette_channel_le; [exact Hv|apply Hm]].
  destruct (half_to_one_finite m Hm) as (M & E & -> & HE & HM).
  assert (HE23 : E <= -23).
  { destruct (Z.le_gt_cases E (-23)) as [Hle | Hgt]; [exact Hle|exfalso].
    assert (2 ^ (- E) <= 2 ^ 22) by (apply Z.pow_le_mono_r; lia).
    assert (2 ^ 22 < 2 ^ 23) by reflexivity.
    lia. }
  destruct (Z.eq_dec v 0) as [-> | Hv0]; [vm_compute; discriminate|].
  destruct (int_to_float_tight v ltac:(lia)) as (mv & ev & Hf & Hmv & Hev & Hmv24).
  unfold vignette_channel. rewrite Hf.
  unfold fmul; cbn [SFmul xorb].
  set (N := (mv * M)%positive).
  set (e := ev + E).
  set (d := Zdigits2 (Zpos N)).
  assert (HN : 2 ^ 46 <= Zpos N < 2 ^ 48).
  { unfold N. rewrite Pos2Z.inj_mul.
    assert (2 ^ (- E) <= 2 ^ 24) by (apply Z.pow_le_mono_r; lia).
    change (2 ^ 46) with (2 ^ 23 * 2 ^ 23). change (2 ^ 48) with (2 ^ 24 * 2 ^ 24).
    nia. }
  assert (Hd : 47 <= d <= 48).
  { unfold d; cbn [Zdigits2]. split.
    - pose proof (digits2_pos_gt N 46 (proj1 HN)). lia.
    - apply digits2_pos_le; lia. }
  set (k := Z.max (fexp 24 128 (d + e) - e) 0).
  assert (Hk : k = d - 24) by (unfold k, fexp, emin, e; lia).
  set (g := e + k).
  assert (Hg : -1 - g = -1 - ev - E - k) by (unfold g, e; lia).
  assert (Hpev : 0 < 2 ^ (- ev)) by (apply Z.pow_pos_nonneg; lia).
  assert (HpE : 0 < 2 ^ (- E)) by (apply Z.pow_pos_nonneg; lia).
  assert (Hpk : 0 < 2 ^ k) by (apply Z.pow_pos_nonneg; lia).
  assert (HpL : 0 < 2 ^ (-1 - g)) by (apply Z.pow_pos_nonneg; unfold g, e; lia).
  assert (HLk : 2 ^ (-1 - g) * 2 ^ k = 2 ^ (- ev) * 2 ^ (-1 - E)).
  { rewrite <- !Z.pow_add_r by (unfold g, e; lia). f_equal. unfold g, e. lia. }
  assert (HUk : 2 ^ (- g) * 2 ^ k = 2 ^ (- ev) * 2 ^ (- E)).
  { rewrite <- !Z.pow_add_r by (unfold g, e; lia). f_equal. unfold g, e. lia. }
  assert (HE1 : 2 ^ (- E) = 2 * 2 ^ (-1 - E)).
  { rewrite <- Z.pow_succ_r by lia. f_equal. lia. }
  assert (HpE1 : 0 < 2 ^ (-1 - E)) by (apply Z.pow_pos_nonneg; lia).
  assert (HM1 : 2 ^ (-1 - E) <= Zpos M).
  { assert (2 ^ (-1 - E) <= 2 ^ 23) by (apply Z.pow_le_mono_r; lia). lia. }
  destruct (round_between 24 128 eq_refl false N e (v * 2 ^ (-1 - g)) (v * 2 ^ (- g)))
    as (mr & j & Hres & Hj & Hlo & Hhi).
  - nia.
  - exists (v * 2 ^ (-1 - g - 1)).
    rewrite <- Z.mul_assoc. f_equal.
    rewrite <- (Z.pow_1_r 2) at 3.
    rewrite <- Z.pow_add_r by (unfold g, e; lia). f_equal. lia.
  - fold d. fold k. unfold N. rewrite Pos2Z.inj_mul, Hmv.
    rewrite <- (Z.mul_assoc v (2 ^ (-1 - g)) (2 ^ k)), HLk.
    rewrite <- (Z.mul_assoc v (2 ^ (- g)) (2 ^ k)), HUk.
    split; nia.
  - fold d. fold k. unfold e. lia.
  - fold d in Hj, Hlo, Hhi. fold k in Hj, Hlo, Hhi.
    rewrite Hres.
    set (x := e + j) in *.
    assert (Hx : x < 0) by (unfold x, e; lia).
    assert (Hjk : 0 <= j - k <= 1) by lia.
    assert (Hpjk : 0 < 2 ^ (j - k)) by (apply Z.pow_pos_nonneg; lia).
    assert (Hlow : v * 2 ^ (- x - 1) <= Zpos mr).
    { apply (Z.mul_le_mono_pos_r _ _ (2 ^ (j - k)) Hpjk).
      rewrite <- Z.mul_assoc, <- Z.pow_add_r by (unfold x, e; lia).
      replace (- x - 1 + (j - k)) with (-1 - g) by (unfold x, g; lia).
      exact Hlo. }
    assert (Hupp : Zpos mr <= v * 2 ^ (- x)).
    { apply (Z.mul_le_mono_pos_r _ _ (2 ^ (j - k)) Hpjk).
      rewrite <- Z.mul_assoc, <- Z.pow_add_r by (unfold x, e; lia).
      replace (- x + (j - k)) with (- g) by (unfold x, g; lia).
      exact Hhi. }
    pose proof (shift_round_even_ge_half v (Zpos mr) (- x) ltac:(lia) ltac:(lia) Hlow) as Hge.
    pose proof (shift_round_even_le (Zpos mr) (- x) v ltac:(lia) ltac:(lia) Hupp) as [_ Hle'].
    assert (Hh0 : 0 <= half_even v).
    { unfold half_even.
      pose proof (shift_round_even_le v 1 v ltac:(lia) ltac:(lia) ltac:(lia)). lia. }
    unfold cvRound_float, rint.
    destruct (Z.leb_spec 0 x) as [Hx0 | _]; [lia|].
    rewrite in_int_uchar, saturate_uchar_id by lia.
    exact Hge.
Qed.

(** X11: in each channel, a mask value between 0.5 and 1.0 leaves an 8-bit
    value between its half (rounded, ties to even) and itself; the lower end
    is what the untouched 0.5 of the mask gives. *)
Theorem vignette_darkens_at_most_half (v : Z) (m : spec_float) :
  is_uchar v -> half_to_one m ->
  half_even v <= vignette_channel v m <= v /\
  vignette_channel v f_half = half_even v /\
  v - 1 <= 2 * half_even v <= v + 1.
Proof.
  intros Hv Hm.
  split; [apply vignette_channel_between; assumption|].
  assert (Hhalf : vignette_channel v f_half = half_even v).
  { apply Z.eqb_eq.
    apply (forallb_range half_mask_halves 0 256 half_mask_halves_all).
    unfold is_uchar in Hv. lia. }
  split; [exact Hhalf|].
  unfold half_even, shift_round_even.
  change (2 ^ (1 - 1)) with 1. change (2 ^ 1) with 2.
  pose proof (Z.div_mod v 2 ltac:(lia)).
  pose proof (Z.mod_pos_bound v 2 ltac:(lia)).
  destruct (Z.ltb_spec (v mod 2) 1); [lia|].
  destruct (Z.ltb_spec 1 (v mod 2)); [lia|].
  destruct (Z.even (v / 2)); lia.
Qed.

Lemma half_to_one_half : half_to_one f_half.
Proof. repeat split. Qed.

Lemma half_to_one_one : half_to_one f_one.
Proof. repeat split. Qed.

Lemma halo_mask_half_to_one (image : Mat (Vec3 Z)) (r : Z) :
  circle_contract -> blur_averages -> mask_half_to_one (halo_mask image r).
Proof.
  intros Hcircle Hblur.
  unfold halo_mask.
  apply Hblur, Hcircle.
  - unfold Mat_fill.
    apply Forall_forall; intros row Hrow.
    apply repeat_spec in Hrow; subst row.
    apply Forall_forall; intros px Hpx.
    apply repeat_spec in Hpx; subst px.
    cbn [ch0 ch1 ch2]. auto using half_to_one_half.
  - cbn [ch0 ch1 ch2]. auto using half_to_one_one.
Qed.

(** X12: with a toolkit whose [cv::circle] only writes the colour it is given
    and whose [cv::blur] averages, every channel the halo callback puts in
    [display] lies between half the channel of [result] it comes from and
    that channel. *)
Theorem halo_display_between (st : state) (r c : nat) (p q : Vec3 Z) :
  circle_contract -> blur_averages ->
  uchar_image (result (trackbar_halo st)) ->
  at_ (result (trackbar_halo st)) r c = Some p ->
  at_ (display (trackbar_halo st)) r c = Some q ->
  half_even (ch0 p) <= ch0 q <= ch0 p /\
  half_even (ch1 p) <= ch1 q <= ch1 p /\
  half_even (ch2 p) <= ch2 q <= ch2 p.
Proof.
  intros Hcircle Hblur Himage Hp Hq.
  pose proof (at_Forall _ _ _ _ _ Himage Hp) as (H0 & H1 & H2).
  pose proof (halo_mask_half_to_one (img st) (radius (trackbar_halo st)) Hcircle Hblur) as Hmask.
  change (display (trackbar_halo st))
    with (vignette (result (trackbar_halo st)) (halo_mask (img st) (radius (trackbar_halo st)))) in Hq.
  rewrite at_vignette, Hp in Hq.
  destruct (at_ (halo_mask (img st) (radius (trackbar_halo st))) r c) as [mk|] eqn:Hmk;
    [|discriminate].
  apply some_eq in Hq; subst q.
  pose proof (at_Forall _ _ _ _ _ Hmask Hmk) as (M0 & M1 & M2).
  cbn [vec3_zip ch0 ch1 ch2].
  split; [|split]; apply vignette_channel_between; assumption.
Qed.

(** ** The pixel radius of a slider position *)

Lemma pos_iter_xO (p n : positive) : Zpos (PosDef.Pos.iter xO p n) = Zpos p * 2 ^ Zpos n.
Proof.
  rewrite <- Z.shiftl_mul_pow2 by lia.
  apply (Pos.iter_swap_gen _ _ Zpos xO (Z.mul 2)).
  reflexivity.
Qed.

Lemma shl_align_lower (mx : positive) (ex ex' : Z) :
  ex' < ex ->
  exists mz, shl_align mx ex ex' = (mz, ex') /\ Zpos mz = Zpos mx * 2 ^ (ex - ex').
Proof.
  intros Hlt.
  unfold shl_align.
  destruct (ex' - ex) as [|dd|dd] eqn:Hd; try lia.
  exists (PosDef.Pos.iter xO mx dd).
  split; [reflexivity|].
  rewrite pos_iter_xO. f_equal. f_equal. lia.
Qed.

(** The [double] of a positive [int] is exact: it is [mm * 2^x] with
    [mm = m * 2^(-x)]. *)
Lemma int_to_double_pos (m : Z) :
  1 <= m < 2 ^ 31 ->
  exists mm x, int_to_double m = S754_finite false mm x /\
               Zpos mm = m * 2 ^ (- x) /\ -52 <= x <= -21 /\
               2 ^ 51 <= Zpos mm < 2 ^ 53.
Proof.
  intros Hm.
  destruct m as [|p|p]; try lia.
  unfold int_to_double, binary_normalize, binary_round.
  set (dp := Zpos (digits2_pos p)).
  assert (Hdp : 1 <= dp <= 31).
  { unfold dp. split; [lia|]. apply digits2_pos_le; lia. }
  assert (Hp : 2 ^ (dp - 1) <= Zpos p < 2 ^ dp).
  { unfold dp. rewrite digits2_pos_size. split.
    - pose proof (Pos.size_le p) as Hle.
      apply Pos2Z.pos_le_pos in Hle.
      rewrite Pos2Z.inj_pow in Hle.
      change (Zpos p~0) with (2 * Zpos p) in Hle.
      replace (Zpos (Pos.size p)) with (Z.succ (Zpos (Pos.size p) - 1)) in Hle by lia.
      rewrite Z.pow_succ_r in Hle by lia. lia.
    - pose proof (Pos.size_gt p) as Hgt.
      apply Pos2Z.pos_lt_pos in Hgt. now rewrite Pos2Z.inj_pow in Hgt. }
  assert (Hfexp : fexp 53 1024 (dp + 0) = dp - 53) by (unfold fexp, emin; lia).
  rewrite Hfexp.
  destruct (shl_align_lower p 0 (dp - 53) ltac:(lia)) as (mz & -> & Hmz).
  replace (0 - (dp - 53)) with (53 - dp) in Hmz by lia.
  assert (Hpow : 2 ^ (dp - 1) * 2 ^ (53 - dp) = 2 ^ 52).
  { rewrite <- Z.pow_add_r by lia. f_equal. lia. }
  assert (Hpow' : 2 ^ dp * 2 ^ (53 - dp) = 2 ^ 53).
  { rewrite <- Z.pow_add_r by lia. f_equal. lia. }
  assert (Hps : 0 < 2 ^ (53 - dp)) by (apply Z.pow_pos_nonneg; lia).
  assert (Hmz' : 2 ^ 52 <= Zpos mz < 2 ^ 53) by nia.
  assert (Hdz : Zdigits2 (Zpos mz) = 53).
  { cbn [Zdigits2].
    pose proof (digits2_pos_gt mz 52 (proj1 Hmz')).
    pose proof (digits2_pos_le mz 53 ltac:(lia) (proj2 Hmz')). lia. }
  destruct (round_between 53 1024 eq_refl false mz (dp - 53) (Zpos mz) (Zpos mz))
    as (mm & j & Hres & Hj & Hlo & Hhi).
  - lia.
  - exists (Zpos p * 2 ^ (53 - dp - 1)).
    rewrite Hmz, <- Z.mul_assoc. f_equal.
    rewrite <- (Z.pow_1_r 2) at 3.
    rewrite <- Z.pow_add_r by lia. f_equal. lia.
  - rewrite Hdz. unfold fexp, emin.
    replace (Z.max (Z.max (53 + (dp - 53) - 53) (3 - 1024 - 53) - (dp - 53)) 0) with 0 by lia.
    rewrite Z.pow_0_r. lia.
  - rewrite Hdz. unfold fexp, emin. lia.
  - rewrite Hdz in Hj, Hlo, Hhi. unfold fexp, emin in Hj, Hlo, Hhi.
    replace (Z.max (Z.max (53 + (dp - 53) - 53) (3 - 1024 - 53) - (dp - 53)) 0) with 0 in * by lia.
    rewrite Z.sub_0_r in Hlo, Hhi.
    exists mm, (dp - 53 + j).
    split; [exact Hres|].
    assert (Hpj : 0 < 2 ^ j) by (apply Z.pow_pos_nonneg; lia).
    assert (Hmm : Zpos mm * 2 ^ j = Zpos mz) by lia.
    assert (Hexp : 2 ^ (53 - dp) = 2 ^ (- (dp - 53 + j)) * 2 ^ j).
    { rewrite <- Z.pow_add_r by lia. f_equal. lia. }
    split.
    + apply (Z.mul_reg_r _ _ (2 ^ j)); [lia|].
      rewrite Hmm, Hmz, Hexp. ring.
    + split; [lia|].
      assert (2 ^ j <= 2) by (destruct (Z.eq_dec j 0) as [-> | ?]; [cbn; lia|replace j with 1 by lia; cbn; lia]).
      change (2 ^ 52) with (2 * 2 ^ 51) in Hmz'.
      nia.
Qed.

Lemma slider_quotients_ok : forallb slider_quotient_ok (map Z.of_nat (seq 1 100)) = true.
Proof. vm_compute. reflexivity. Qed.

Lemma slider_quotient (r : Z) :
  1 <= r <= 100 ->
  exists mq xq, ddiv (int_to_double r) (int_to_double 200) = S754_finite false mq xq /\
                2 ^ 52 <= Zpos mq < 2 ^ 53 /\ -62 <= xq <= -53 /\
                Z.abs (200 * Zpos mq - r * 2 ^ (- xq)) <= 100 /\
                (quotient_not_below r = true -> r * 2 ^ (- xq) <= 200 * Zpos mq).
Proof.
  intros Hr.
  pose proof (forallb_range slider_quotient_ok 1 100 slider_quotients_ok r ltac:(lia)) as Htab.
  unfold slider_quotient_ok in Htab. unfold quotient_not_below.
  destruct (ddiv (int_to_double r) (int_to_double 200)) as [sg|sg| |[|] mq xq]; try discriminate.
  exists mq, xq.
  rewrite !andb_true_iff in Htab.
  destruct Htab as [[[[H1 H2] H3] H4] H5].
  apply Z.leb_le in H1, H3, H4, H5. apply Z.ltb_lt in H2.
  repeat split; try assumption.
  intros Hnb. now apply Z.leb_le.
Qed.

(** The truncated product of the halo callback, for an image dimension [m]
    and a slider position [r]: [m * r / 200] or one less, and exactly
    [m * r / 200] when the rounded quotient is not below [r / 200]. *)
Lemma truncated_product_bracket (m r : Z) :
  1 <= m < 2 ^ 31 -> 1 <= r <= 100 ->
  let t := double_to_int (dmul (int_to_double m) (ddiv (int_to_double r) (int_to_double 200))) in
  m * r / 200 - 1 <= t <= m * r / 200 /\ 0 <= t /\
  (quotient_not_below r = true \/ (m * r) mod 200 <> 0 -> t = m * r / 200).
Proof.
  intros Hm Hr.
  destruct (int_to_double_pos m Hm) as (mm & x & -> & Hmm & Hx & Hmm').
  destruct (slider_quotient r Hr) as (mq & xq & -> & Hmq & Hxq & Habs & Hnb).
  unfold dmul; cbn [SFmul xorb].
  set (K := m * r / 200).
  pose proof (Z.div_mod (m * r) 200 ltac:(lia)) as HK. fold K in HK.
  pose proof (Z.mod_pos_bound (m * r) 200 ltac:(lia)) as Hrho.
  set (rho := (m * r) mod 200) in *.
  assert (HK0 : 0 <= K) by (unfold K; apply Z.div_pos; nia).
  assert (HKm : K < 2 ^ 31) by nia.
  set (T := 2 ^ (- xq)) in *.
  set (X := 2 ^ (- x)) in *.
  assert (HX : 0 < X) by (apply Z.pow_pos_nonneg; lia).
  set (T20 := 2 ^ (- xq - 20)).
  assert (HT20 : 2 ^ 33 <= T20) by (apply Z.pow_le_mono_r; lia).
  assert (HT : T = 2 ^ 20 * T20).
  { unfold T, T20. rewrite <- Z.pow_add_r by lia. f_equal. lia. }
  set (N := (mm * mq)%positive).
  assert (HN : Zpos N = m * X * Zpos mq) by (unfold N; rewrite Pos2Z.inj_mul, Hmm; reflexivity).
  assert (HNr : 2 ^ 103 <= Zpos N < 2 ^ 106).
  { unfold N. rewrite Pos2Z.inj_mul.
    change (2 ^ 103) with (2 ^ 51 * 2 ^ 52). change (2 ^ 106) with (2 ^ 53 * 2 ^ 53). nia. }
  set (e := x + xq).
  set (d := Zdigits2 (Zpos N)).
  assert (Hd : 104 <= d <= 106).
  { unfold d; cbn [Zdigits2]. split.
    - pose proof (digits2_pos_gt N 103 (proj1 HNr)). lia.
    - apply digits2_pos_le; lia. }
  set (k := Z.max (fexp 53 1024 (d + e) - e) 0).
  assert (Hk : k = d - 53) by (unfold k, fexp, emin, e; lia).
  set (g := e + k).
  assert (Hg : 21 <= - g) by (unfold g, e; lia).
  assert (Hpk : 0 < 2 ^ k) by (apply Z.pow_pos_nonneg; lia).
  assert (Hgk : 2 ^ (- g) * 2 ^ k = X * T).
  { unfold X, T. rewrite <- !Z.pow_add_r by (unfold g, e; lia). f_equal. unfold g, e. lia. }
  assert (Hgk20 : 2 ^ (- g - 20) * 2 ^ k = X * T20).
  { unfold X, T20. rewrite <- !Z.pow_add_r by (unfold g, e; lia). f_equal. unfold g, e. lia. }
  assert (Hmq200 : r * T - 100 <= 200 * Zpos mq <= r * T + 100) by lia.
  (* the exact product, against K and K + 1 *)
  assert (Hprod_hi : m * Zpos mq <= (K + 1) * T - T20).
  { assert (200 * (m * Zpos mq) <= m * (r * T + 100)) by nia.
    assert (m * (r * T + 100) = (200 * K + rho) * T + 100 * m)
      by (rewrite <- HK; ring).
    assert ((200 * K + rho) * T <= (200 * K + 199) * T) by nia.
    assert (100 * m + 200 * T20 <= T) by nia.
    nia. }
  assert (Hprod_lo : (K - 1) * T <= m * Zpos mq).
  { assert (m * (r * T - 100) <= 200 * (m * Zpos mq)) by nia.
    assert (m * (r * T - 100) = (200 * K + rho) * T - 100 * m)
      by (rewrite <- HK; ring).
    assert (200 * K * T <= (200 * K + rho) * T) by nia.
    assert (100 * m <= 200 * T) by nia.
    nia. }
  assert (Hprod_ex : quotient_not_below r = true -> K * T <= m * Zpos mq).
  { intros Hq. specialize (Hnb Hq).
    assert (m * (r * T) <= 200 * (m * Zpos mq)) by nia.
    assert (m * (r * T) = (200 * K + rho) * T) by (rewrite <- HK; ring).
    assert (200 * K * T <= (200 * K + rho) * T) by nia.
    nia. }
  assert (Hprod_ex' : rho <> 0 -> K * T <= m * Zpos mq).
  { intros Hrho0.
    assert (m * (r * T - 100) <= 200 * (m * Zpos mq)) by nia.
    assert (m * (r * T - 100) = (200 * K + rho) * T - 100 * m)
      by (rewrite <- HK; ring).
    assert ((200 * K + 1) * T <= (200 * K + rho) * T) by nia.
    assert (100 * m <= T) by nia.
    nia. }
  set (exact := quotient_not_below r || negb (rho =? 0)).
  set (Klow := if exact then K else K - 1).
  assert (HKlow : K - 1 <= Klow <= K) by (unfold Klow; destruct exact; lia).
  assert (Hprod_low : Klow * T <= m * Zpos mq).
  { unfold Klow, exact.
    destruct (quotient_not_below r); [now apply Hprod_ex|].
    destruct (Z.eqb_spec rho 0) as [Hz | Hnz]; [exact Hprod_lo|now apply Hprod_ex']. }
  set (U := (K + 1) * 2 ^ (- g) - 2 ^ (- g - 20)).
  set (L := Z.max 2 (Klow * 2 ^ (- g))).
  assert (Hpg : 0 < 2 ^ (- g)) by (apply Z.pow_pos_nonneg; lia).
  assert (Hpg1 : 2 ^ (- g) = 2 * 2 ^ (- g - 1)).
  { rewrite <- Z.pow_succ_r by lia. f_equal. lia. }
  destruct (round_between 53 1024 eq_refl false N e L U) as (mr & j & Hres & Hj & Hlo & Hhi).
  - unfold L. lia.
  - unfold L. destruct (Z.max_spec 2 (Klow * 2 ^ (- g))) as [[_ ->] | [_ ->]].
    + exists (Klow * 2 ^ (- g - 1)). rewrite Hpg1. ring.
    + exists 1. reflexivity.
  - fold d. fold k. split.
    + unfold L. destruct (Z.max_spec 2 (Klow * 2 ^ (- g))) as [[_ ->] | [_ ->]].
      * rewrite <- Z.mul_assoc, Hgk, HN. nia.
      * assert (2 ^ (k + 1) <= 2 ^ 103) by (apply Z.pow_le_mono_r; lia).
        rewrite Z.pow_add_r, Z.pow_1_r in * by lia. lia.
    + unfold U. rewrite Z.mul_sub_distr_r, <- Z.mul_assoc, Hgk, Hgk20, HN. nia.
  - fold d. fold k. unfold e. lia.
  - fold d in Hj, Hlo, Hhi. fold k in Hj, Hlo, Hhi.
    rewrite Hres.
    set (xr := e + j) in *.
    assert (Hxr : xr < 0) by (unfold xr; unfold g in Hg; lia).
    assert (Hpjk : 0 < 2 ^ (j - k)) by (apply Z.pow_pos_nonneg; lia).
    assert (Hpxr : 0 < 2 ^ (- xr)) by (apply Z.pow_pos_nonneg; lia).
    assert (Hsplit : 2 ^ (- g) = 2 ^ (- xr) * 2 ^ (j - k)).
    { rewrite <- Z.pow_add_r by lia. f_equal. unfold xr, g. lia. }
    assert (Hp20 : 0 < 2 ^ (- g - 20)) by (apply Z.pow_pos_nonneg; lia).
    set (Xr := 2 ^ (- xr)) in *.
    set (P := 2 ^ (j - k)) in *.
    assert (Hup : Zpos mr / Xr <= K).
    { apply Z.lt_succ_r, Z.div_lt_upper_bound; [exact Hpxr|].
      apply (Z.mul_lt_mono_pos_r P); [exact Hpjk|].
      replace (Xr * Z.succ K * P) with ((K + 1) * (Xr * P)) by ring.
      rewrite <- Hsplit.
      unfold U in Hhi. lia. }
    assert (Hdown : Klow <= Zpos mr / Xr).
    { apply Z.div_le_lower_bound; [exact Hpxr|].
      apply (Z.mul_le_mono_pos_r _ _ P); [exact Hpjk|].
      replace (Xr * Klow * P) with (Klow * (Xr * P)) by ring.
      rewrite <- Hsplit.
      unfold L in Hlo. lia. }
    assert (Hnn : 0 <= Zpos mr / Xr) by (apply Z.div_pos; lia).
    cbv zeta.
    unfold double_to_int, truncate.
    destruct (Z.leb_spec 0 xr) as [Hbad | _]; [lia|].
    fold Xr.
    assert (Hint : in_int (Zpos mr / Xr) = true).
    { unfold in_int, INT_MIN, INT_MAX.
      apply andb_true_iff; split; apply Z.leb_le; lia. }
    rewrite Hint.
    split; [lia|]. split; [lia|].
    intros Hq.
    assert (Hexact : exact = true).
    { unfold exact. destruct Hq as [-> | Hq]; [reflexivity|].
      destruct (Z.eqb_spec rho 0) as [Hz | Hnz]; [contradiction|].
      apply orb_true_r. }
    unfold Klow in Hdown. rewrite Hexact in Hdown. lia.
Qed.

Lemma int_to_double_0 : int_to_double 0 = S754_zero false.
Proof. reflexivity. Qed.

Lemma quotient_not_below_100 : quotient_not_below 100 = true.
Proof. vm_compute. reflexivity. Qed.

(** The pixel radius for a smaller dimension [m] and a slider position [r],
    also when one of them is 0. *)
Lemma halo_radius_bracket (m r : Z) :
  0 <= m < 2 ^ 31 -> 0 <= r <= 100 ->
  Z.max 1 (m * r / 200 - 1) <= halo_radius m m r <= Z.max 1 (m * r / 200) /\
  (quotient_not_below r = true \/ (m * r) mod 200 <> 0 ->
   halo_radius m m r = Z.max 1 (m * r / 200)).
Proof.
  intros Hm Hr.
  unfold halo_radius. rewrite Z.min_id.
  destruct (Z.eq_dec r 0) as [-> | Hr0].
  - assert (Hq : ddiv (int_to_double 0) (int_to_double 200) = S754_zero false)
      by (vm_compute; reflexivity).
    rewrite Hq, Z.mul_0_r.
    change (0 / 200) with 0.
    assert (Ht : double_to_int (dmul (int_to_double m) (S754_zero false)) = 0).
    { destruct (Z.eq_dec m 0) as [-> | Hm0]; [reflexivity|].
      destruct (int_to_double_pos m ltac:(lia)) as (mm & x & -> & _).
      reflexivity. }
    rewrite Ht. split; [lia|reflexivity].
  - destruct (Z.eq_dec m 0) as [-> | Hm0].
    + destruct (slider_quotient r ltac:(lia)) as (mq & xq & -> & _).
      rewrite int_to_double_0.
      change (double_to_int (dmul (S754_zero false) (S754_finite false mq xq))) with 0.
      change (0 * r / 200) with 0.
      split; [lia|reflexivity].
    + pose proof (truncated_product_bracket m r ltac:(lia) ltac:(lia)) as Hb.
      cbv zeta in Hb. destruct Hb as (Hb & Hnn & Hex).
      split; [lia|].
      intros Hq. rewrite (Hex Hq). reflexivity.
Qed.

Lemma cols_rows_nonneg {A : Type} (m : Mat A) : 0 <= Z.min (cols m) (rows m).
Proof. unfold cols, rows. lia. Qed.

(** X13: a move of the radius slider to a position in 0..100 leaves in
    [radius] the integer quotient [min(cols, rows) * pos / 200] or one less
    (the quotient [pos / 200.0] is rounded before it is multiplied), and
    never less than 1; where the rounded quotient is not below [pos / 200]
    it is the integer quotient itself. *)
Theorem slider_radius_bracket (st : state) (pos : Z) :
  0 <= pos <= 100 -> Z.min (cols (img st)) (rows (img st)) < 2 ^ 31 ->
  let K := Z.min (cols (img st)) (rows (img st)) * pos / 200 in
  let st' := on_move (move_radius pos) st in
  Z.max 1 (K - 1) <= radius st' <= Z.max 1 K /\
  (quotient_not_below pos = true -> radius st' = Z.max 1 K).
Proof.
  intros Hpos Hdim K st'.
  unfold st'. cbn [on_move].
  rewrite radius_trackbar_halo. cbn [set_radius img radius].
  rewrite halo_radius_min.
  destruct (halo_radius_bracket (Z.min (cols (img st)) (rows (img st))) pos) as [Hb Hex].
  - split; [apply cols_rows_nonneg|exact Hdim].
  - exact Hpos.
  - split; [exact Hb|].
    intros Hq. apply Hex. now left.
Qed.

(** X14: with the radius slider at its upper end, 100, the pixel radius is
    half of the smaller image dimension, and 1 for an image of one row or one
    column. *)
Theorem full_slider_radius_is_half (st : state) :
  Z.min (cols (img st)) (rows (img st)) < 2 ^ 31 ->
  radius (on_move (move_radius 100) st) = Z.max 1 (Z.min (cols (img st)) (rows (img st)) / 2).
Proof.
  intros Hdim.
  cbn [on_move].
  rewrite radius_trackbar_halo. cbn [set_radius img radius].
  rewrite halo_radius_min.
  destruct (halo_radius_bracket (Z.min (cols (img st)) (rows (img st))) 100) as [_ Hex].
  - split; [apply cols_rows_nonneg|exact Hdim].
  - lia.
  - rewrite (Hex (or_introl quotient_not_below_100)).
    f_equal.
    replace 200 with (100 * 2) by reflexivity.
    rewrite <- Z.div_div by lia.
    now rewrite Z.div_mul by lia.
Qed.

(** ** The halo callback: buffer, product and radius *)

Lemma half_even_near (v : Z) : v - 1 <= 2 * half_even v <= v + 1.
Proof.
  unfold half_even, shift_round_even.
  change (2 ^ (1 - 1)) with 1. change (2 ^ 1) with 2.
  pose proof (Z.div_mod v 2 ltac:(lia)).
  pose proof (Z.mod_pos_bound v 2 ltac:(lia)).
  destruct (Z.ltb_spec (v mod 2) 1); [lia|].
  destruct (Z.ltb_spec 1 (v mod 2)); [lia|].
  destruct (Z.even (v / 2)); lia.
Qed.

(** What one channel of the product is, in integers: the value itself under
    the disc's 1.0, its half to the nearest integer under the background's
    0.5, and between the two under a mask value between them. *)
Lemma vignette_channel_product (v : Z) (m : spec_float) :
  is_uchar v ->
  (m = f_one -> vignette_channel v m = v) /\
  (m = f_half -> v - 1 <= 2 * vignette_channel v m <= v + 1) /\
  (half_to_one m -> v - 1 <= 2 * vignette_channel v m /\ vignette_channel v m <= v).
Proof.
  intros Hv.
  pose proof (half_even_near v) as Hnear.
  split; [intros ->; apply vignette_channel_one, Hv|].
  split.
  - intros ->.
    assert (Hhalf : vignette_channel v f_half = half_even v).
    { apply Z.eqb_eq.
      apply (forallb_range half_mask_halves 0 256 half_mask_halves_all).
      unfold is_uchar in Hv. lia. }
    rewrite Hhalf. exact Hnear.
  - intros Hm.
    pose proof (vignette_channel_between v m Hv Hm). lia.
Qed.

(** C2: the halo callback works on [result]: it first sets it to the original
    image when it is unset and leaves it alone otherwise, and after a colour
    callback on a loaded image it is set.  What it writes to [display] is,
    pixel by pixel and channel by channel, the product of that buffer with
    the mask, in [float] and converted back to 8 bits: the channel itself
    where the mask is 1.0, its half (to the nearest integer) where the mask
    is 0.5, and a value between the two for a mask value between them. *)
Theorem halo_composes_on_result (st : state) (r c : nat) (p : Vec3 Z) (mk : Vec3 spec_float) :
  let st' := trackbar_halo st in
  let product := fun (v : Z) (m : spec_float) (w : Z) =>
    w = saturate_uchar (cvRound_float (fmul (int_to_float v) m)) /\
    (m = f_one -> w = v) /\
    (m = f_half -> v - 1 <= 2 * w <= v + 1) /\
    (half_to_one m -> v - 1 <= 2 * w /\ w <= v) in
  at_ (result st') r c = Some p ->
  at_ (halo_mask (img st) (radius st')) r c = Some mk ->
  uchar_pixel p ->
  (empty (result st) = true -> result st' = img st) /\
  (empty (result st) = false -> result st' = result st) /\
  (empty (img st) = false ->
   empty (result (trackbar_color st)) = false /\
   result (trackbar_halo (trackbar_color st)) = channel_remap (img st) (color_lut st)) /\
  exists q : Vec3 Z,
    at_ (display st') r c = Some q /\
    product (ch0 p) (ch0 mk) (ch0 q) /\
    product (ch1 p) (ch1 mk) (ch1 q) /\
    product (ch2 p) (ch2 mk) (ch2 q).
Proof.
  intros st' product Hp Hmk (H0 & H1 & H2).
  split; [intros He; unfold st', trackbar_halo; cbn [result]; now rewrite He|].
  split; [intros He; unfold st', trackbar_halo; cbn [result]; now rewrite He|].
  split.
  { intros Himg.
    assert (Hres : empty (result (trackbar_color st)) = false)
      by now rewrite empty_result_trackbar_color.
    split; [exact Hres|].
    unfold trackbar_halo at 1; cbn [result].
    now rewrite Hres. }
  exists (vec3_zip vignette_channel p mk).
  split.
  - change (display st')
      with (vignette (result st') (halo_mask (img st) (radius st'))).
    now rewrite at_vignette, Hp, Hmk.
  - cbn [vec3_zip ch0 ch1 ch2]. unfold product.
    pose proof (vignette_channel_product (ch0 p) (ch0 mk) H0) as (A0 & B0 & C0).
    pose proof (vignette_channel_product (ch1 p) (ch1 mk) H1) as (A1 & B1 & C1).
    pose proof (vignette_channel_product (ch2 p) (ch2 mk) H2) as (A2 & B2 & C2).
    split; [|split]; (split; [reflexivity|]); auto.
Qed.

(** The radius left by a move of the radius slider depends on the image and
    the position only. *)
Lemma radius_run_to (moves : list slider_move) (pos : Z) (st : state) :
  radius (run (moves ++ [move_radius pos]) st) = halo_radius (cols (img st)) (rows (img st)) pos.
Proof.
  rewrite run_app.
  change (run [move_radius pos] ?x) with (trackbar_halo (set_radius pos x)).
  rewrite radius_trackbar_halo. cbn [set_radius img radius].
  now rewrite img_run.
Qed.

Lemma on_move_radius_again (pos : Z) (st : state) :
  on_move (move_radius pos) (on_move (move_radius pos) st) = on_move (move_radius pos) st.
Proof.
  cbn [on_move].
  unfold trackbar_halo, set_radius; cbn [img result display s radius].
  destruct (empty (result st)) eqn:Hres.
  - now destruct (empty (img st)).
  - now rewrite Hres.
Qed.

(** C3, as the program has it: the halo callback overwrites [radius] with the
    pixel radius it derives from it, but it is called from the radius slider
    only, and the slider stores its position in [radius] before each call.
    So the pixel radius after a move to [pos] is the one derived from [pos]
    and the image, whatever moves came before; a later move to the same
    position, with any moves between, gives the same pixel radius, and a
    second move right away changes nothing at all. *)
Theorem halo_radius_follows_slider (decoded : Mat (Vec3 Z))
  (before between : list slider_move) (pos : Z) :
  let st1 := run (before ++ [move_radius pos]) (initial decoded) in
  let st2 := run (between ++ [move_radius pos]) st1 in
  radius st1 = halo_radius (cols decoded) (rows decoded) pos /\
  radius st2 = radius st1 /\
  on_move (move_radius pos) st1 = st1.
Proof.
  intros st1 st2.
  assert (H1 : radius st1 = halo_radius (cols decoded) (rows decoded) pos)
    by apply radius_run_to.
  split; [exact H1|].
  split.
  - unfold st2. rewrite radius_run_to, H1.
    unfold st1. now rewrite img_run.
  - unfold st1. rewrite run_app.
    change (run [move_radius pos] ?x) with (on_move (move_radius pos) x).
    apply on_move_radius_again.
Qed.

(** C5: called with [radius] in the slider's range 0..100, the halo callback
    replaces it by the product of the smaller image dimension [m] and
    [radius / 200.0], computed in [double], cut to an [int] and raised to 1
    if smaller.  In integers that is [m * radius / 200] or, since the
    quotient is rounded before it is multiplied, one less, and never less
    than 1; it is [m * radius / 200] itself when [m * radius] is not a
    multiple of 200 or the rounded quotient is not below [radius / 200].
    The disc and the blur of the mask use that value. *)
Theorem halo_pixel_radius (st : state) :
  0 <= radius st <= 100 ->
  Z.min (cols (img st)) (rows (img st)) < 2 ^ 31 ->
  let m := Z.min (cols (img st)) (rows (img st)) in
  let p := radius st in
  let st' := trackbar_halo st in
  radius st' = Z.max 1 (double_to_int (dmul (int_to_double m)
                                            (ddiv (int_to_double p) (int_to_double 200)))) /\
  Z.max 1 (m * p / 200 - 1) <= radius st' <= Z.max 1 (m * p / 200) /\
  (quotient_not_below p = true \/ (m * p) mod 200 <> 0 -> radius st' = Z.max 1 (m * p / 200)) /\
  display st' =
    vignette (result st')
      (cv_blur (cv_circle (Mat_fill (rows (img st)) (cols (img st)) (mkVec3 f_half f_half f_half))
                          (Z.quot (cols (img st)) 2, Z.quot (rows (img st)) 2) (radius st')
                          (mkVec3 f_one f_one f_one))
               (radius st', radius st')).
Proof.
  intros Hp Hdim m p st'.
  assert (Hrad : radius st' = halo_radius m m p).
  { unfold st'. rewrite radius_trackbar_halo. apply halo_radius_min. }
  split; [rewrite Hrad; unfold halo_radius; now rewrite Z.min_id|].
  destruct (halo_radius_bracket m p) as [Hb Hex].
  - split; [apply cols_rows_nonneg|exact Hdim].
  - exact Hp.
  - split; [rewrite Hrad; exact Hb|].
    split; [rewrite Hrad; exact Hex|].
    reflexivity.
Qed.

End Session.

(** ** The program on concrete inputs *)

(** [double] arithmetic, not exact arithmetic: on a 100 x 100 image a slider
    position of 58 gives 28 pixels, although [100 * 58 / 200 = 29]. *)
Example halo_radius_100_58 : halo_radius 100 100 58 = 28.
Proof. vm_compute. reflexivity. Qed.

(** On a 100 x 100 image the pixel radius goes 50, 25, 12, 6, 3, 1, 1. *)
Example halo_radius_chain :
  map (fun r => halo_radius 100 100 r) [100; 50; 25; 12; 6; 3; 1] = [50; 25; 12; 6; 3; 1; 1].
Proof. vm_compute. reflexivity. Qed.

(** Two calls of the halo callback in a row, without the slider storing its
    position between them, would not leave the same [radius]. *)
Example halo_not_idempotent :
  let st := initial (Mat_fill 4 4 (mkVec3 0 0 0)) in
  radius (trackbar_halo disc_circle no_blur st) = 2 /\
  radius (trackbar_halo disc_circle no_blur (trackbar_halo disc_circle no_blur st)) = 1.
Proof. vm_compute. split; reflexivity. Qed.

Example vignette_pixel :
  vignette [[mkVec3 255 128 7]] [[mkVec3 f_half f_one f_half]] = [[mkVec3 128 128 4]].
Proof. vm_compute. reflexivity. Qed.

Example channel_remap_pixel :
  channel_remap [[mkVec3 1 2 3; mkVec3 4 5 0]] [9; 8; 7; 6] = [[mkVec3 1 2 6; mkVec3 4 5 9]].
Proof. reflexivity. Qed.

(** The middle of the curve is a fixed point for every [s]: entry 128 is 128. *)
Lemma lut_midpoint (sv : Z) : nth 128 (build_lut sv) 0 = 128.
Proof.
  rewrite nth_build_lut by lia.
  change (Z.of_nat 128) with 128.
  assert (Hv : curve_value sv 128 = IZR 128).
  { unfold curve_value.
    replace (IZR 128 / 256 - 5 / 10)%R with 0%R by lra.
    unfold Rdiv at 2. rewrite Rmult_0_l, Ropp_0, Rpower_exp_e, exp_0. lra. }
  rewrite Hv.
  unfold cvRound.
  rewrite ZfloorZ.
  destruct (Rlt_dec (IZR 128 - IZR 128) (1 / 2)) as [_ | Hd]; [reflexivity|].
  exfalso. apply Hd. lra.
Qed.

(** ** Saving before the halo callback has run *)


(** ** Instances of the theorems, and the inputs on which C3 and C9 fail *)

Lemma lut_entry_is_rounded_logistic_witness :
  let sv := Z.max (s (initial [])) 8 in
  let v := (256 * logistic ((IZR 255 / 256 - 1 / 2) / (IZR sv / 100)))%R in
  let entry := nth (Z.to_nat 255) (color_lut (initial [])) 0 in
  (Rabs (IZR entry - v) <= 1 / 2)%R /\
  (Rabs (IZR entry - v) = (1 / 2)%R -> Z.even entry = true) /\
  0 <= entry <= 255.
Proof.
  apply (lut_entry_is_rounded_logistic (initial []) 255); cbn; lia.
Defined.


(** On a 4 x 4 image the disc of radius 2 does not reach the corner: the mask
    is 0.5 there and the corner pixel is halved. *)
Lemma halo_composes_on_result_witness :
  let st := initial (Mat_fill 4 4 (mkVec3 200 101 7)) in
  let st' := trackbar_halo disc_circle no_blur st in
  let product := fun (v : Z) (m : spec_float) (w : Z) =>
    w = saturate_uchar (cvRound_float (fmul (int_to_float v) m)) /\
    (m = f_one -> w = v) /\
    (m = f_half -> v - 1 <= 2 * w <= v + 1) /\
    (half_to_one m -> v - 1 <= 2 * w /\ w <= v) in
  exists q : Vec3 Z,
    at_ (display st') 0 0 = Some q /\
    product 200 f_half (ch0 q) /\
    product 101 f_half (ch1 q) /\
    product 7 f_half (ch2 q).
Proof.
  apply (halo_composes_on_result disc_circle no_blur (initial (Mat_fill 4 4 (mkVec3 200 101 7)))
           0 0 (mkVec3 200 101 7) (mkVec3 f_half f_half f_half)).
  - vm_compute. reflexivity.
  - vm_compute. reflexivity.
  - unfold uchar_pixel, is_uchar; cbn; lia.
Defined.

(** On a 100 x 100 image a [radius] of 58 gives 28 pixels, one less than
    [100 * 58 / 200 = 29]. *)
Lemma halo_pixel_radius_witness :
  let st := set_radius 58 (initial (Mat_fill 100 100 (mkVec3 0 0 0))) in
  let m := Z.min (cols (img st)) (rows (img st)) in
  let p := radius st in
  let st' := trackbar_halo disc_circle no_blur st in
  Z.max 1 (m * p / 200 - 1) <= radius st' <= Z.max 1 (m * p / 200).
Proof.
  apply (halo_pixel_radius disc_circle no_blur
           (set_radius 58 (initial (Mat_fill 100 100 (mkVec3 0 0 0))))).
  - cbn; lia.
  - vm_compute. reflexivity.
Defined.

Lemma vignette_never_brightens_witness :
  exists q : Vec3 Z,
    at_ (vignette [[mkVec3 255 128 7]] [[mkVec3 f_half f_one f_half]]) 0 0 = Some q /\
    darkened 255 f_half (ch0 q) /\ darkened 128 f_one (ch1 q) /\ darkened 7 f_half (ch2 q).
Proof.
  apply (vignette_never_brightens [[mkVec3 255 128 7]] [[mkVec3 f_half f_one f_half]]
           0 0 (mkVec3 255 128 7) (mkVec3 f_half f_one f_half)).
  - unfold uchar_pixel, is_uchar; cbn; lia.
  - reflexivity.
  - reflexivity.
Defined.

Lemma key_gate_reads_one_key_witness :
  main disc_circle no_blur strict_imwrite (Picture [[mkVec3 10 20 30]]) [] [120; 115]
  = Some (mkOutcome 0 None).
Proof.
  apply (key_gate_reads_one_key disc_circle no_blur strict_imwrite
           [[mkVec3 10 20 30]] [] 120 [115]).
  - reflexivity.
  - cbn; lia.
  - cbn; lia.
Defined.


(** Against C3: on a 100 x 100 image a move of the radius slider to 100
    leaves a pixel radius of 50, and a second move to 100 leaves 50 again and
    the same state: the radius has not shrunk, although recomputing from the
    converted value would give 25. *)
Lemma halo_radius_kept_by_second_move :
  let st0 := initial (Mat_fill 100 100 (mkVec3 0 0 0)) in
  let st1 := run disc_circle no_blur [move_radius 100] st0 in
  let st2 := run disc_circle no_blur [move_radius 100; move_radius 100] st0 in
  radius st1 = 50 /\ radius st2 = 50 /\ st2 = st1 /\
  ~ radius st2 < radius st1 /\
  halo_radius 100 100 50 = 25.
Proof.
  intros st0 st1 st2.
  assert (H1 : radius st1 = 50).
  { unfold st1.
    change [move_radius 100] with ([] ++ [move_radius 100]).
    rewrite radius_run_to. vm_compute. reflexivity. }
  assert (H21 : st2 = st1).
  { unfold st2, st1.
    change (run disc_circle no_blur [move_radius 100; move_radius 100] st0)
      with (on_move disc_circle no_blur (move_radius 100)
              (on_move disc_circle no_blur (move_radius 100) st0)).
    apply on_move_radius_again. }
  rewrite H21, H1.
  split; [reflexivity|]. split; [reflexivity|]. split; [reflexivity|].
  split; [lia|].
  vm_compute. reflexivity.
Qed.

(** Against C9: with the key [x] (120) pressed first the process ends with
    code 0 and writes nothing, also when [s] (115) is pressed next; had [x]
    been ignored, the [s] would have saved the display. *)
Lemma unrecognized_key_ends_process :
  let pic := Picture [[mkVec3 10 20 30]] in
  main disc_circle no_blur strict_imwrite pic [move_radius 100] [120] = Some (mkOutcome 0 None) /\
  main disc_circle no_blur strict_imwrite pic [move_radius 100] [120; 115] = Some (mkOutcome 0 None) /\
  main disc_circle no_blur strict_imwrite pic [move_radius 100] [115]
    = Some (mkOutcome 0 (Some [[mkVec3 10 20 30]])).
Proof. vm_compute. repeat split; reflexivity. Qed.

(** ** The shape of the colour curve *)

Section CurveShape.

Local Open Scope R_scope.

Lemma cvRound_bounds (x : R) : (Zfloor x <= cvRound x <= Zfloor x + 1)%Z.
Proof.
  unfold cvRound.
  destruct (Rlt_dec (x - IZR (Zfloor x)) (1 / 2)); [lia|].
  destruct (Rlt_dec (1 / 2) (x - IZR (Zfloor x))); [lia|].
  destruct (Z.even (Zfloor x)); lia.
Qed.

(** Rounding to nearest, ties to even, is monotone. *)
Lemma cvRound_le (x y : R) : x <= y -> (cvRound x <= cvRound y)%Z.
Proof.
  intros Hxy.
  pose proof (Zfloor_le x y Hxy) as Hfl.
  pose proof (cvRound_bounds x) as Hx.
  pose proof (cvRound_bounds y) as Hy.
  destruct (Z.eq_dec (Zfloor x) (Zfloor y)) as [Heq | Hne]; [|lia].
  unfold cvRound in *. rewrite <- Heq in *.
  destruct (Rlt_dec (x - IZR (Zfloor x)) (1 / 2)) as [Hx1 | Hx1]; [lia|].
  destruct (Rlt_dec (y - IZR (Zfloor x)) (1 / 2)) as [Hy1 | Hy1]; [lra|].
  destruct (Rlt_dec (1 / 2) (x - IZR (Zfloor x))) as [Hx2 | Hx2];
    destruct (Rlt_dec (1 / 2) (y - IZR (Zfloor x))) as [Hy2 | Hy2]; try lia; lra.
Qed.

(** Rounding commutes with the reflection [x |-> 256 - x]. *)
Lemma cvRound_reflect (x : R) : cvRound (256 - x) = (256 - cvRound x)%Z.
Proof.
  pose proof (Zfloor_bound x) as [Hlo Hhi].
  set (n := Zfloor x) in *.
  destruct (Req_dec x (IZR n)) as [Hint | Hfrac].
  - assert (Hf : Zfloor (256 - x) = (256 - n)%Z).
    { apply Zfloor_eq. rewrite minus_IZR. lra. }
    unfold cvRound. fold n. rewrite Hf, minus_IZR.
    destruct (Rlt_dec (256 - x - (256 - IZR n)) (1 / 2)) as [_ | Hd]; [|lra].
    destruct (Rlt_dec (x - IZR n) (1 / 2)) as [_ | Hd]; [reflexivity|lra].
  - assert (Hf : Zfloor (256 - x) = (256 - n - 1)%Z).
    { apply Zfloor_eq. rewrite !minus_IZR. lra. }
    unfold cvRound. fold n. rewrite Hf, !minus_IZR.
    destruct (Rlt_dec (x - IZR n) (1 / 2)) as [Hx1 | Hx1].
    + destruct (Rlt_dec (256 - x - (256 - IZR n - 1)) (1 / 2)) as [Hy1 | Hy1]; [lra|].
      destruct (Rlt_dec (1 / 2) (256 - x - (256 - IZR n - 1))) as [Hy2 | Hy2]; [lia|lra].
    + destruct (Rlt_dec (1 / 2) (x - IZR n)) as [Hx2 | Hx2].
      * destruct (Rlt_dec (256 - x - (256 - IZR n - 1)) (1 / 2)) as [Hy1 | Hy1]; [lia|lra].
      * destruct (Rlt_dec (256 - x - (256 - IZR n - 1)) (1 / 2)) as [Hy1 | Hy1]; [lra|].
        destruct (Rlt_dec (1 / 2) (256 - x - (256 - IZR n - 1))) as [Hy2 | Hy2]; [lra|].
        replace (256 - n - 1)%Z with (256 - Z.succ n)%Z by lia.
        rewrite Z.even_sub, Z.even_succ, <- Z.negb_even.
        change (Z.even 256) with true.
        destruct (Z.even n); cbn [negb Bool.eqb]; lia.
Qed.

Lemma logistic_le (t1 t2 : R) : t1 <= t2 -> logistic t1 <= logistic t2.
Proof.
  intros Ht.
  unfold logistic.
  pose proof (exp_pos (- t1)) as H1.
  pose proof (exp_pos (- t2)) as H2.
  assert (He : exp (- t2) <= exp (- t1)).
  { destruct Ht as [Hlt | ->]; [|lra].
    left. apply exp_increasing. lra. }
  unfold Rdiv. rewrite !Rmult_1_l.
  apply Rinv_le_contravar; lra.
Qed.

Lemma logistic_reflect (t : R) : logistic (- t) = 1 - logistic t.
Proof.
  unfold logistic.
  rewrite Ropp_involutive, exp_Ropp.
  pose proof (exp_pos t) as Hp.
  field. split; lra.
Qed.

Lemma curve_value_le_index (sv i j : Z) :
  (0 < sv)%Z -> (i <= j)%Z -> curve_value sv i <= curve_value sv j.
Proof.
  intros Hs Hij.
  apply IZR_lt in Hs. apply IZR_le in Hij.
  rewrite !curve_value_logistic.
  apply Rmult_le_compat_l; [lra|].
  apply logistic_le.
  apply Rmult_le_compat_r; [left; apply Rinv_0_lt_compat; lra|lra].
Qed.

(** A larger [s] flattens the curve: lower above the middle, higher below. *)
Lemma curve_value_le_steepness (s1 s2 i : Z) :
  (0 < s1 <= s2)%Z ->
  ((128 <= i)%Z -> curve_value s2 i <= curve_value s1 i) /\
  ((i <= 128)%Z -> curve_value s1 i <= curve_value s2 i).
Proof.
  intros [Hs1 Hs2].
  apply IZR_lt in Hs1. apply IZR_le in Hs2.
  assert (Hinv : / (IZR s2 / 100) <= / (IZR s1 / 100))
    by (apply Rinv_le_contravar; lra).
  rewrite !curve_value_logistic.
  split; intros Hi; apply IZR_le in Hi;
    (apply Rmult_le_compat_l; [lra|]); apply logistic_le; unfold Rdiv at 1 3.
  - apply Rmult_le_compat_l; lra.
  - apply Rmult_le_compat_neg_l; lra.
Qed.

Lemma curve_value_reflect (sv i : Z) :
  curve_value sv (256 - i) = 256 - curve_value sv i.
Proof.
  rewrite !curve_value_logistic, minus_IZR.
  replace ((256 - IZR i) / 256 - 1 / 2) with (- (IZR i / 256 - 1 / 2)) by lra.
  unfold Rdiv at 1. rewrite Ropp_mult_distr_l_reverse.
  fold (Rdiv (IZR i / 256 - 1 / 2) (IZR sv / 100)).
  rewrite logistic_reflect. lra.
Qed.

End CurveShape.

(** For an effective [s] in 8..20 an entry is the rounded value itself. *)
Lemma build_lut_entry (sv i : Z) :
  8 <= sv <= 20 -> 0 <= i <= 255 ->
  nth (Z.to_nat i) (build_lut sv) 0 = cvRound (curve_value sv i).
Proof.
  intros Hs Hi.
  rewrite nth_build_lut by lia.
  rewrite Z2Nat.id by lia.
  unfold to_uchar.
  apply Z.mod_small.
  pose proof (cvRound_curve_range sv i Hs Hi). lia.
Qed.

(** X7: for an effective [s] in 8..20 the table is non-decreasing: the colour
    callback never inverts the order of two channel-2 values. *)
Theorem lut_non_decreasing (st : state) (i j : Z) :
  s st <= 20 -> 0 <= i -> i <= j -> j <= 255 ->
  nth (Z.to_nat i) (color_lut st) 0 <= nth (Z.to_nat j) (color_lut st) 0.
Proof.
  intros Hs Hi Hij Hj.
  unfold color_lut.
  rewrite !build_lut_entry by lia.
  apply cvRound_le, curve_value_le_index; lia.
Qed.

(** X8: for an effective [s] in 8..20 the table is symmetric about its middle:
    entry [256 - i] is 256 minus entry [i], for [i] in 1..255. *)
Theorem lut_point_symmetric (st : state) (i : Z) :
  s st <= 20 -> 1 <= i <= 255 ->
  nth (Z.to_nat (256 - i)) (color_lut st) 0 = 256 - nth (Z.to_nat i) (color_lut st) 0.
Proof.
  intros Hs Hi.
  unfold color_lut.
  rewrite !build_lut_entry by lia.
  now rewrite curve_value_reflect, cvRound_reflect.
Qed.

(** X9: a larger slider position [s] gives a flatter curve: between two
    effective values in 8..20, the table of the larger one is nowhere higher
    from index 128 up and nowhere lower up to index 128. *)
Theorem lut_flattens_with_s (st1 st2 : state) (i : Z) :
  8 <= s st1 -> s st1 <= s st2 -> s st2 <= 20 -> 0 <= i <= 255 ->
  (128 <= i -> nth (Z.to_nat i) (color_lut st2) 0 <= nth (Z.to_nat i) (color_lut st1) 0) /\
  (i <= 128 -> nth (Z.to_nat i) (color_lut st1) 0 <= nth (Z.to_nat i) (color_lut st2) 0).
Proof.
  intros H1 H12 H2 Hi.
  unfold color_lut.
  rewrite !Z.max_l by lia.
  rewrite !build_lut_entry by lia.
  destruct (curve_value_le_steepness (s st1) (s st2) i ltac:(lia)) as [Hup Hdown].
  split; intros Hi'; apply cvRound_le; auto.
Qed.

(** X10: whatever [s] is, the colour callback leaves a pixel whose channel 2
    is 128 as it is. *)
Theorem color_filter_keeps_midpoint (st : state) (r c : nat) (p : Vec3 Z) :
  at_ (img st) r c = Some p -> ch2 p = 128 ->
  at_ (result (trackbar_color st)) r c = Some p.
Proof.
  intros Hp H128.
  rewrite result_trackbar_color, channel_remap_map, at_map, Hp.
  cbn [option_map]. f_equal.
  destruct p as [b g r2]; cbn [ch2] in H128; subst r2.
  unfold remap_pixel, color_lut; cbn [ch0 ch1 ch2].
  change (Z.to_nat 128) with 128%nat.
  now rewrite lut_midpoint.
Qed.
(** ** The simple toolkit functions meet the toolkit hypotheses *)

Lemma Forall_mapi_from {A : Type} (P : A -> Prop) (f : Z -> A -> A) (i : Z) (l : list A) :
  (forall k a, P a -> P (f k a)) -> Forall P l -> Forall P (mapi_from f i l).
Proof.
  intros Hf Hl. revert i.
  induction Hl as [|a l Ha Hl IH]; intros i; cbn [mapi_from]; constructor; auto.
Qed.

Lemma length_mapi_from {A B : Type} (f : Z -> A -> B) (i : Z) (l : list A) :
  length (mapi_from f i l) = length l.
Proof.
  revert i; induction l as [|a l IH]; intros i; cbn [mapi_from length]; [reflexivity|].
  now rewrite IH.
Qed.

Lemma disc_circle_contract : circle_contract disc_circle.
Proof.
  intros P m centre r colour Hm Hc.
  unfold disc_circle.
  apply Forall_mapi_from; [|exact Hm].
  intros y row Hrow.
  apply Forall_mapi_from; [|exact Hrow].
  intros x px Hpx.
  now destruct (_ <=? _).
Qed.

Lemma disc_circle_keeps_shape : circle_keeps_shape disc_circle.
Proof.
  intros m centre r colour.
  unfold disc_circle, shape.
  generalize 0 at 2.
  induction m as [|row m IH]; intros y; cbn [mapi_from map]; [reflexivity|].
  now rewrite length_mapi_from, IH.
Qed.

Lemma no_blur_keeps_shape : blur_keeps_shape no_blur.
Proof. intros m ksize. reflexivity. Qed.

Lemma no_blur_averages : blur_averages no_blur.
Proof. intros m ksize Hm. exact Hm. Qed.

(** ** Instances of the further theorems *)

Lemma output_only_on_save_witness :
  exists decoded key rest,
    Picture [[mkVec3 10 20 30]] = Picture decoded /\ empty decoded = false /\
    [115] = key :: rest /\ to_uchar key = 115 /\
    [[mkVec3 10 20 30]] = display (run disc_circle no_blur [move_radius 100] (initial decoded)) /\
    strict_imwrite [[mkVec3 10 20 30]] = Written /\
    exit_code (mkOutcome 0 (Some [[mkVec3 10 20 30]])) = 0.
Proof.
  apply (output_only_on_save disc_circle no_blur strict_imwrite
           (Picture [[mkVec3 10 20 30]]) [move_radius 100] [115]
           (mkOutcome 0 (Some [[mkVec3 10 20 30]])) [[mkVec3 10 20 30]]).
  - vm_compute. reflexivity.
  - reflexivity.
Defined.

Lemma exit_code_zero_needs_clean_run_witness :
  (exit_code (mkOutcome 0 (Some [[mkVec3 10 20 30]])) = 0 \/
   exit_code (mkOutcome 0 (Some [[mkVec3 10 20 30]])) = 1) /\
  (exit_code (mkOutcome 0 (Some [[mkVec3 10 20 30]])) = 0 ->
   exists decoded key rest,
     Picture [[mkVec3 10 20 30]] = Picture decoded /\ empty decoded = false /\
     [115] = key :: rest /\
     (to_uchar key = 115 ->
      strict_imwrite (display (run disc_circle no_blur [move_radius 100] (initial decoded)))
      <> Raised)).
Proof.
  apply (exit_code_zero_needs_clean_run disc_circle no_blur strict_imwrite
           (Picture [[mkVec3 10 20 30]]) [move_radius 100] [115]
           (mkOutcome 0 (Some [[mkVec3 10 20 30]]))).
  vm_compute. reflexivity.
Defined.

Lemma low_s_positions_act_as_8_witness :
  on_move disc_circle no_blur (move_s 3) (initial []) = on_move disc_circle no_blur (move_s 8) (initial []).
Proof.
  apply (low_s_positions_act_as_8 disc_circle no_blur 3 (initial [])). lia.
Defined.

Lemma result_is_last_color_remap_witness :
  result (run disc_circle no_blur ([move_radius 40] ++ move_s 12 :: map move_radius [50; 60])
              (initial [[mkVec3 10 20 30]]))
    = channel_remap [[mkVec3 10 20 30]] (build_lut (Z.max 12 8)) /\
  result (run disc_circle no_blur (map move_radius (70 :: [50; 60])) (initial [[mkVec3 10 20 30]]))
    = [[mkVec3 10 20 30]].
Proof.
  apply (result_is_last_color_remap disc_circle no_blur [[mkVec3 10 20 30]] [move_radius 40]
           12 70 [50; 60]).
  reflexivity.
Defined.

Lemma buffers_stay_8bit_witness :
  buffers_8bit (run disc_circle no_blur [move_s 12; move_radius 50] (initial [[mkVec3 10 20 30]])).
Proof.
  apply (buffers_stay_8bit disc_circle no_blur [[mkVec3 10 20 30]] [move_s 12; move_radius 50]).
  unfold uchar_image. repeat (apply Forall_cons || apply Forall_nil).
  unfold uchar_pixel, is_uchar; cbn; lia.
Defined.

Lemma display_has_image_size_witness :
  let st := run disc_circle no_blur ([move_s 12] ++ [move_radius 50])
                (initial [[mkVec3 10 20 30; mkVec3 1 2 3]]) in
  shape (display st) = shape [[mkVec3 10 20 30; mkVec3 1 2 3]] /\
  shape (result st) = shape [[mkVec3 10 20 30; mkVec3 1 2 3]] /\
  empty (display st) = empty [[mkVec3 10 20 30; mkVec3 1 2 3]].
Proof.
  apply (display_has_image_size disc_circle no_blur [[mkVec3 10 20 30; mkVec3 1 2 3]]
           [move_s 12] 50).
  - unfold rectangular. repeat (apply Forall_cons || apply Forall_nil). reflexivity.
  - exact disc_circle_keeps_shape.
  - exact no_blur_keeps_shape.
Defined.

Lemma lut_non_decreasing_witness :
  nth (Z.to_nat 3) (color_lut (initial [])) 0 <= nth (Z.to_nat 200) (color_lut (initial [])) 0.
Proof.
  apply (lut_non_decreasing (initial []) 3 200); cbn; lia.
Defined.

Lemma lut_point_symmetric_witness :
  nth (Z.to_nat (256 - 3)) (color_lut (initial [])) 0
  = 256 - nth (Z.to_nat 3) (color_lut (initial [])) 0.
Proof.
  apply (lut_point_symmetric (initial []) 3); cbn; lia.
Defined.

Lemma lut_flattens_with_s_witness :
  (128 <= 200 -> nth (Z.to_nat 200) (color_lut (set_s 15 (initial []))) 0
                 <= nth (Z.to_nat 200) (color_lut (initial [])) 0) /\
  (200 <= 128 -> nth (Z.to_nat 200) (color_lut (initial [])) 0
                 <= nth (Z.to_nat 200) (color_lut (set_s 15 (initial []))) 0).
Proof.
  apply (lut_flattens_with_s (initial []) (set_s 15 (initial [])) 200); cbn; lia.
Defined.

Lemma color_filter_keeps_midpoint_witness :
  at_ (result (trackbar_color (initial [[mkVec3 1 2 128]]))) 0 0 = Some (mkVec3 1 2 128).
Proof.
  apply (color_filter_keeps_midpoint (initial [[mkVec3 1 2 128]]) 0 0 (mkVec3 1 2 128));
    reflexivity.
Defined.

Lemma vignette_darkens_at_most_half_witness :
  half_even 201 <= vignette_channel 201 f_half <= 201 /\
  vignette_channel 201 f_half = half_even 201 /\
  201 - 1 <= 2 * half_even 201 <= 201 + 1.
Proof.
  apply (vignette_darkens_at_most_half 201 f_half).
  - unfold is_uchar. lia.
  - unfold half_to_one, at_least_half, at_most_one. vm_compute. repeat split.
Defined.

Lemma halo_display_between_witness :
  half_even (ch0 (mkVec3 10 20 30)) <= ch0 (mkVec3 10 20 30) <= ch0 (mkVec3 10 20 30) /\
  half_even (ch1 (mkVec3 10 20 30)) <= ch1 (mkVec3 10 20 30) <= ch1 (mkVec3 10 20 30) /\
  half_even (ch2 (mkVec3 10 20 30)) <= ch2 (mkVec3 10 20 30) <= ch2 (mkVec3 10 20 30).
Proof.
  apply (halo_display_between disc_circle no_blur (initial [[mkVec3 10 20 30]]) 0 0
           (mkVec3 10 20 30) (mkVec3 10 20 30)).
  - exact disc_circle_contract.
  - exact no_blur_averages.
  - unfold uchar_image. repeat (apply Forall_cons || apply Forall_nil).
    unfold uchar_pixel, is_uchar; cbn; lia.
  - reflexivity.
  - vm_compute. reflexivity.
Defined.

Lemma slider_radius_bracket_witness :
  let K := Z.min (cols (img (initial (Mat_fill 3 4 (mkVec3 0 0 0)))))
                 (rows (img (initial (Mat_fill 3 4 (mkVec3 0 0 0))))) * 58 / 200 in
  let st' := on_move disc_circle no_blur (move_radius 58) (initial (Mat_fill 3 4 (mkVec3 0 0 0))) in
  Z.max 1 (K - 1) <= radius st' <= Z.max 1 K /\
  (quotient_not_below 58 = true -> radius st' = Z.max 1 K).
Proof.
  apply (slider_radius_bracket disc_circle no_blur (initial (Mat_fill 3 4 (mkVec3 0 0 0))) 58).
  - lia.
  - vm_compute. reflexivity.
Defined.

Lemma full_slider_radius_is_half_witness :
  radius (on_move disc_circle no_blur (move_radius 100) (initial (Mat_fill 3 4 (mkVec3 0 0 0))))
  = Z.max 1 (Z.min (cols (img (initial (Mat_fill 3 4 (mkVec3 0 0 0)))))
                   (rows (img (initial (Mat_fill 3 4 (mkVec3 0 0 0))))) / 2).
Proof.
  apply (full_slider_radius_is_half disc_circle no_blur (initial (Mat_fill 3 4 (mkVec3 0 0 0)))).
  vm_compute. reflexivity.
Defined.
